(** * Hints of the serializer for background compilation

    A shallow embedding of [src/compiler/serializer-hints.h]: the
    persistent set [FunctionalSet] built on the zone-allocated persistent
    list, the context hint [VirtualContext], and the capped mutators of
    [Hints].

    Memory is explicit.  A [Zone] is the sequence of list cells allocated so
    far; a list is a pointer to its first cell, so that pointer identity
    ([TriviallyEquals]) and structural sharing are visible in the model. *)

From Stdlib Require Import ZArith List Bool Arith Lia FinFun.
Import ListNotations.

(* ===================================================================== *)
(** ** The persistent list primitive                                      *)
(* ===================================================================== *)

Module FunctionalList.
Section WithElement.

Variable A : Type.

(** Modelled from the spec: the cell of the persistent singly-linked list
    of [src/compiler/functional-list.h], which this header only includes.
    A cell holds its element, the pointer to the rest of the list
    ([None] is [nullptr]) and the size counter of the list that starts at
    it.  The counter is a [size_t]; it counts cells that exist in memory, so
    it cannot reach the word size and is kept as an unbounded number. *)
Record Cons : Type := mkCons {
  top : A;
  rest : option nat;
  size : nat
}.

(** Modelled from the spec: the allocation arena, as far as list cells are
    concerned.  Allocation is bump-style and nothing is ever freed or
    overwritten: the arena is the list of cells allocated so far, newest
    first, and the address of a cell is the number of cells that were
    allocated before it. *)
Definition Zone : Type := list Cons.

(** Modelled from the spec: a list is the pointer [elements_] to its first
    cell. *)
Definition FunctionalList : Type := option nat.

(** The cell stored at address [p], if that address is allocated. *)
Fixpoint deref (zone : Zone) (p : nat) : option Cons :=
  match zone with
  | [] => None
  | c :: older => if p =? length older then Some c else deref older p
  end.

(** Modelled from the spec: the list's size counter, read off its first
    cell. *)
Definition Size (zone : Zone) (l : FunctionalList) : nat :=
  match l with
  | None => 0
  | Some p => match deref zone p with
              | Some c => size c
              | None => 0
              end
  end.

(** Modelled from the spec: the pointer-equality short-circuit. *)
Definition TriviallyEquals (l other : FunctionalList) : bool :=
  match l, other with
  | None, None => true
  | Some p, Some q => p =? q
  | _, _ => false
  end.

(** Modelled from the spec: O(1) prepend.  A fresh cell is allocated in the
    zone, in front of the unchanged list, and the list now points to it. *)
Definition PushFront (a : A) (zone : Zone) (l : FunctionalList)
  : FunctionalList * Zone :=
  (Some (length zone), mkCons a l (1 + Size zone l) :: zone).

(** Modelled from the spec: forward iteration from [begin()] to [end()],
    as the sequence of elements met.  The recursion walks the zone from
    its newest cell down; [elements_chase] below shows that on a zone
    built by [PushFront] this is following the [rest] pointers. *)
Fixpoint elements (zone : Zone) (l : FunctionalList) : list A :=
  match zone with
  | [] => []
  | c :: older =>
      match l with
      | None => []
      | Some p => if p =? length older
                  then top c :: elements older (rest c)
                  else elements older l
      end
  end.

(** [l] points into [zone] (or is the empty list). *)
Definition valid (zone : Zone) (l : FunctionalList) : Prop :=
  match l with
  | None => True
  | Some p => p < length zone
  end.

(** Every cell of the zone was made by [PushFront]: its [rest] pointed
    into the zone of that moment and its counter is one more than the
    rest's. *)
Fixpoint wf (zone : Zone) : Prop :=
  match zone with
  | [] => True
  | c :: older =>
      valid older (rest c) /\ size c = 1 + Size older (rest c) /\ wf older
  end.

(** [zone'] is [zone] after further allocations. *)
Definition extends (zone zone' : Zone) : Prop :=
  exists newer, zone' = newer ++ zone.

(* --------------------------------------------------------------------- *)
(** *** Persistence of lists under allocation                             *)
(* --------------------------------------------------------------------- *)

Lemma extends_refl : forall zone, extends zone zone.
Proof. intros zone. exists []. reflexivity. Qed.

Lemma extends_trans : forall z1 z2 z3,
  extends z1 z2 -> extends z2 z3 -> extends z1 z3.
Proof.
  intros z1 z2 z3 [n1 H1] [n2 H2]. exists (n2 ++ n1).
  subst. now rewrite app_assoc.
Qed.

Lemma extends_cons : forall c zone, extends zone (c :: zone).
Proof. intros c zone. exists [c]. reflexivity. Qed.

Lemma extends_length : forall zone zone',
  extends zone zone' -> length zone <= length zone'.
Proof. intros zone zone' [n ->]. rewrite length_app. lia. Qed.

Lemma valid_extends : forall zone zone' l,
  valid zone l -> extends zone zone' -> valid zone' l.
Proof.
  intros zone zone' [p|] Hv He; simpl in *; [|exact I].
  apply extends_length in He. lia.
Qed.

Lemma deref_extends : forall zone zone' p,
  p < length zone -> extends zone zone' -> deref zone' p = deref zone p.
Proof.
  intros zone zone' p Hp [newer ->].
  induction newer as [|c newer IH]; simpl; [reflexivity|].
  rewrite length_app.
  destruct (Nat.eqb_spec p (length newer + length zone)); [lia|exact IH].
Qed.

Lemma Size_extends : forall zone zone' l,
  valid zone l -> extends zone zone' -> Size zone' l = Size zone l.
Proof.
  intros zone zone' [p|] Hv He; simpl in *; [|reflexivity].
  now rewrite (deref_extends zone zone' p Hv He).
Qed.

Lemma elements_extends : forall zone zone' l,
  valid zone l -> extends zone zone' -> elements zone' l = elements zone l.
Proof.
  intros zone zone' l Hv [newer ->].
  induction newer as [|c newer IH]; simpl; [reflexivity|].
  destruct l as [p|]; [|now destruct zone].
  simpl in Hv. rewrite length_app.
  destruct (Nat.eqb_spec p (length newer + length zone)); [lia|exact IH].
Qed.

Lemma elements_nil : forall zone, elements zone None = [].
Proof. now intros [|c zone]. Qed.

Lemma deref_Some_lt : forall zone p c,
  deref zone p = Some c -> p < length zone.
Proof.
  induction zone as [|c0 zone IH]; simpl; intros p c H; [discriminate|].
  destruct (Nat.eqb_spec p (length zone)); [lia|].
  apply IH in H. lia.
Qed.

Lemma deref_valid_rest : forall zone p c,
  wf zone -> deref zone p = Some c -> valid zone (rest c).
Proof.
  induction zone as [|c0 zone IH]; simpl; intros p c Hwf H; [discriminate|].
  destruct Hwf as (Hv & _ & Hwf).
  destruct (Nat.eqb_spec p (length zone)).
  - injection H as <-. eapply valid_extends; [exact Hv|apply extends_cons].
  - eapply valid_extends; [eapply IH; eauto|apply extends_cons].
Qed.

(** On a well-formed zone, iteration follows the [rest] pointers: the
    sequence from a cell is its element, then the sequence from its
    rest. *)
Lemma elements_chase : forall zone p,
  wf zone ->
  elements zone (Some p) =
  match deref zone p with
  | Some c => top c :: elements zone (rest c)
  | None => []
  end.
Proof.
  induction zone as [|c0 zone IH]; simpl; intros p Hwf; [reflexivity|].
  destruct Hwf as (Hv & Hs & Hwf).
  destruct (Nat.eqb_spec p (length zone)) as [->|Hne].
  - f_equal. symmetry.
    apply (elements_extends zone (c0 :: zone) (rest c0) Hv (extends_cons c0 zone)).
  - rewrite (IH p Hwf). destruct (deref zone p) as [c|] eqn:E; [|reflexivity].
    f_equal. symmetry.
    apply (elements_extends zone (c0 :: zone) (rest c)).
    + eapply deref_valid_rest; eauto.
    + apply extends_cons.
Qed.

(** The size counter of a list is the number of elements iteration
    yields. *)
Lemma Size_length : forall zone l,
  wf zone -> valid zone l -> Size zone l = length (elements zone l).
Proof.
  induction zone as [|c zone IH]; intros l Hwf Hv.
  - destruct l as [p|]; simpl in *; [lia|reflexivity].
  - destruct l as [p|]; [|reflexivity].
    destruct Hwf as (Hvr & Hs & Hwf). simpl in *.
    destruct (Nat.eqb_spec p (length zone)) as [->|Hne].
    + simpl. rewrite Hs. f_equal. apply IH; assumption.
    + apply (IH (Some p) Hwf). simpl. lia.
Qed.

Lemma PushFront_wf : forall a zone l,
  wf zone -> valid zone l -> wf (snd (PushFront a zone l)).
Proof. intros a zone l Hwf Hv. simpl. auto. Qed.

Lemma PushFront_elements : forall a zone l,
  valid zone l ->
  elements (snd (PushFront a zone l)) (fst (PushFront a zone l)) =
  a :: elements zone l.
Proof. intros a zone l Hv. simpl. now rewrite Nat.eqb_refl. Qed.

Lemma TriviallyEquals_true : forall l other : FunctionalList,
  TriviallyEquals l other = true <-> l = other.
Proof.
  intros [p|] [q|]; simpl; split; intros H; try congruence.
  - apply Nat.eqb_eq in H. now subst.
  - injection H as ->. apply Nat.eqb_refl.
Qed.

End WithElement.

Arguments mkCons {A} top rest size.
Arguments top {A} c.
Arguments rest {A} c.
Arguments size {A} c.
Arguments deref {A} zone p.
Arguments Size {A} zone l.
Arguments PushFront {A} a zone l.
Arguments elements {A} zone l.
Arguments valid {A} zone l.
Arguments wf {A} zone.
Arguments extends {A} zone zone'.

End FunctionalList.

(* ===================================================================== *)
(** ** The persistent set                                                 *)
(* ===================================================================== *)

Module FunctionalSet.
Import FunctionalList.

Section WithElement.

(** The template parameters [T], [EqualTo] and [Hasher]; the two static
    function objects [equal_to] and [hasher] are pure.  A hash is a
    [size_t], combined by exclusive or only, which never leaves the word. *)
Variable T : Type.
Variable equal_to : T -> T -> bool.
Variable hasher : T -> Z.

(** The two private fields: the backing list and the running hash. *)
Record FunctionalSet : Type := mkSet {
  data_ : FunctionalList;
  hash_ : Z
}.

(** The default-constructed set: no cell, hash [0]. *)
Definition empty : FunctionalSet := mkSet None 0.

Definition Size (zone : Zone T) (this : FunctionalSet) : nat :=
  FunctionalList.Size zone (data_ this).

Definition Hash (this : FunctionalSet) : Z := hash_ this.

(** [begin()] to [end()]: the elements of the backing list. *)
Definition iter (zone : Zone T) (this : FunctionalSet) : list T :=
  elements zone (data_ this).

(** The scan that [Add] and [Includes] both run: some element [l] of the
    set has [equal_to(l, elem)]. *)
Definition contains (zone : Zone T) (this : FunctionalSet) (elem : T) : bool :=
  existsb (fun l => equal_to l elem) (iter zone this).

(** [Add]: return at the first element equal to [elem]; otherwise push
    [elem] in front and fold its hash into [hash_].  The result is the
    receiver after the call and the zone after the call. *)
Definition Add (this : FunctionalSet) (elem : T) (zone : Zone T)
  : FunctionalSet * Zone T :=
  if contains zone this elem then (this, zone)
  else
    let (data', zone') := PushFront elem zone (data_ this) in
    (mkSet data' (Z.lxor (hash_ this) (hasher elem)), zone').

(** The loop of [Union]: [Add] each element of the iterated list in turn.
    The iterated cells are immutable, so the elements are those read
    before the loop ([elements_extends]). *)
Definition AddAll (this : FunctionalSet) (elems : list T) (zone : Zone T)
  : FunctionalSet * Zone T :=
  fold_left (fun st elem => Add (fst st) elem (snd st)) elems (this, zone).

(** [Union]: [other] is passed by value.  [std::swap] exchanges the two
    backing lists and nothing else: the receiver keeps its own [hash_]. *)
Definition Union (this other : FunctionalSet) (zone : Zone T)
  : FunctionalSet * Zone T :=
  if negb (TriviallyEquals (data_ this) (data_ other)) then
    let (this_data, other_data) :=
      if FunctionalList.Size zone (data_ this)
         <? FunctionalList.Size zone (data_ other)
      then (data_ other, data_ this)
      else (data_ this, data_ other) in
    AddAll (mkSet this_data (hash_ this)) (elements zone other_data) zone
  else (this, zone).

Definition IsEmpty (this : FunctionalSet) : bool :=
  match data_ this with
  | None => true
  | Some _ => false
  end.

(** [Includes]: [std::all_of] over [other] of [std::any_of] over [this]. *)
Definition Includes (zone : Zone T) (this other : FunctionalSet) : bool :=
  forallb (fun other_elem => contains zone this other_elem) (iter zone other).

(** [operator==]. *)
Definition eqb (zone : Zone T) (this other : FunctionalSet) : bool :=
  TriviallyEquals (data_ this) (data_ other)
  || ((Size zone this =? Size zone other)
      && (Hash this =? Hash other)%Z
      && Includes zone this other
      && Includes zone other this).

(** [operator!=]. *)
Definition neqb (zone : Zone T) (this other : FunctionalSet) : bool :=
  negb (eqb zone this other).

(* --------------------------------------------------------------------- *)
(** *** What a set means                                                  *)
(* --------------------------------------------------------------------- *)

(** The exclusive or of the hashes of a sequence of elements. *)
Definition xor_hashes (l : list T) : Z :=
  fold_right (fun x acc => Z.lxor acc (hasher x)) 0%Z l.

(** No element of the sequence is [equal_to] an element that comes
    after it, i.e. that was in the list when it was pushed. *)
Fixpoint distinct (l : list T) : Prop :=
  match l with
  | [] => True
  | x :: older => (forall y, In y older -> equal_to y x = false) /\ distinct older
  end.

(** [Add] on the sequence of elements. *)
Definition add_elem (l : list T) (elem : T) : list T :=
  if existsb (fun x => equal_to x elem) l then l else elem :: l.

(* --------------------------------------------------------------------- *)
(** *** Programs over sets                                                *)
(* --------------------------------------------------------------------- *)

(** A client of the class holds some sets of one zone and calls [Add] and
    [Union] on them. *)
Inductive op : Type :=
| NewSet
| CallAdd (i : nat) (elem : T)
| CallUnion (i j : nat).

Record state : Type := mkState {
  zone_ : Zone T;
  sets_ : list FunctionalSet
}.

Definition init : state := mkState [] [].

(** [sets] with the set at index [i] replaced. *)
Fixpoint store (sets : list FunctionalSet) (i : nat) (s : FunctionalSet)
  : list FunctionalSet :=
  match sets, i with
  | [], _ => []
  | _ :: tl, 0 => s :: tl
  | hd :: tl, S i' => hd :: store tl i' s
  end.

(** One call.  A call on a set that was not declared does nothing. *)
Definition step (st : state) (o : op) : state :=
  match o with
  | NewSet => mkState (zone_ st) (sets_ st ++ [empty])
  | CallAdd i elem =>
      match nth_error (sets_ st) i with
      | Some this =>
          let (this', zone') := Add this elem (zone_ st) in
          mkState zone' (store (sets_ st) i this')
      | None => st
      end
  | CallUnion i j =>
      match nth_error (sets_ st) i, nth_error (sets_ st) j with
      | Some this, Some other =>
          let (this', zone') := Union this other (zone_ st) in
          mkState zone' (store (sets_ st) i this')
      | _, _ => st
      end
  end.

Definition run (prog : list op) : state := fold_left step prog init.

(** [s] can be obtained from empty sets by calls of [Add] and [Union], in
    the zone [zone]. *)
Definition reachable (zone : Zone T) (s : FunctionalSet) : Prop :=
  exists prog, zone_ (run prog) = zone /\ In s (sets_ (run prog)).

(* --------------------------------------------------------------------- *)
(** *** Sequences of elements                                             *)
(* --------------------------------------------------------------------- *)

(** No two elements of the sequence, at different positions, are equal
    under [equal_to]. *)
Definition no_duplicates (l : list T) : Prop :=
  forall i j x y, i <> j ->
    nth_error l i = Some x -> nth_error l j = Some y -> equal_to x y = false.

(** What is expected of an equality relation. *)
Definition reflexive : Prop := forall x, equal_to x x = true.
Definition symmetric : Prop := forall x y, equal_to x y = equal_to y x.
Definition transitive : Prop :=
  forall x y z, equal_to x y = true -> equal_to y z = true -> equal_to x z = true.

Lemma no_duplicates_distinct : forall l, no_duplicates l -> distinct l.
Proof.
  induction l as [|x l IH]; intros H; simpl; [exact I|]. split.
  - intros y Hy. apply In_nth_error in Hy as [n Hn].
    apply (H (S n) 0); [discriminate|exact Hn|reflexivity].
  - apply IH. intros i j a b Hij Hi Hj.
    apply (H (S i) (S j)); [congruence|exact Hi|exact Hj].
Qed.

Lemma distinct_no_duplicates : forall l,
  symmetric -> distinct l -> no_duplicates l.
Proof.
  intros l Hsym. induction l as [|x l IH]; intros Hd i j a b Hij Hi Hj.
  - now destruct i.
  - destruct Hd as [Hx Hd]. destruct i as [|i], j as [|j]; simpl in *.
    + congruence.
    + injection Hi as <-. rewrite Hsym. apply Hx.
      eapply nth_error_In; eauto.
    + injection Hj as <-. apply Hx. eapply nth_error_In; eauto.
    + apply (IH Hd i j); auto.
Qed.

Lemma existsb_false_forall : forall (l : list T) elem,
  existsb (fun x => equal_to x elem) l = false ->
  forall y, In y l -> equal_to y elem = false.
Proof.
  intros l elem H y Hy.
  destruct (equal_to y elem) eqn:E; [|reflexivity].
  assert (existsb (fun x => equal_to x elem) l = true) as C
    by (apply existsb_exists; eauto).
  congruence.
Qed.

Lemma add_elem_distinct : forall l elem,
  distinct l -> distinct (add_elem l elem).
Proof.
  intros l elem Hd. unfold add_elem.
  destruct (existsb (fun x => equal_to x elem) l) eqn:E; [exact Hd|].
  simpl. split; [|exact Hd]. now apply existsb_false_forall.
Qed.

Lemma fold_add_elem_distinct : forall elems l,
  distinct l -> distinct (fold_left add_elem elems l).
Proof.
  induction elems as [|e elems IH]; intros l Hd; simpl; [exact Hd|].
  apply IH. now apply add_elem_distinct.
Qed.

(** Adding brings in nothing but the elements given. *)
Lemma fold_add_elem_In : forall elems l x,
  In x (fold_left add_elem elems l) -> In x l \/ In x elems.
Proof.
  induction elems as [|e elems IH]; intros l x H; simpl in *; [now left|].
  apply IH in H as [H|H]; [|now right; right].
  unfold add_elem in H.
  destruct (existsb (fun y => equal_to y e) l); [now left|].
  destruct H as [<-|H]; [right; now left|now left].
Qed.

(** Adding never removes: the old sequence is a suffix of the new one. *)
Lemma fold_add_elem_suffix : forall elems l,
  exists added, fold_left add_elem elems l = added ++ l.
Proof.
  induction elems as [|e elems IH]; intros l; simpl.
  - exists []. reflexivity.
  - destruct (IH (add_elem l e)) as [added Ha]. rewrite Ha. unfold add_elem.
    destruct (existsb (fun x => equal_to x e) l).
    + exists added. reflexivity.
    + exists (added ++ [e]). now rewrite <- app_assoc.
Qed.

Lemma existsb_add_elem : forall l elem x,
  transitive ->
  existsb (fun y => equal_to y x) (add_elem l elem) =
  existsb (fun y => equal_to y x) l || equal_to elem x.
Proof.
  intros l elem x Htr. unfold add_elem.
  destruct (existsb (fun y => equal_to y elem) l) eqn:E.
  - destruct (equal_to elem x) eqn:Ex; [|now rewrite orb_false_r].
    rewrite orb_true_r. apply existsb_exists in E as (y & Hy & Hye).
    apply existsb_exists. exists y. split; [exact Hy|]. eapply Htr; eauto.
  - simpl. apply orb_comm.
Qed.

Lemma existsb_fold_add_elem : forall elems l x,
  transitive ->
  existsb (fun y => equal_to y x) (fold_left add_elem elems l) =
  existsb (fun y => equal_to y x) l || existsb (fun y => equal_to y x) elems.
Proof.
  induction elems as [|e elems IH]; intros l x Htr; simpl.
  - now rewrite orb_false_r.
  - rewrite (IH _ _ Htr), (existsb_add_elem _ _ _ Htr). now rewrite orb_assoc.
Qed.

(* --------------------------------------------------------------------- *)
(** *** What the operations do to the elements and to the zone            *)
(* --------------------------------------------------------------------- *)

Lemma Add_present : forall this elem zone,
  contains zone this elem = true -> Add this elem zone = (this, zone).
Proof. intros this elem zone H. unfold Add. now rewrite H. Qed.

Lemma Add_absent : forall this elem zone,
  contains zone this elem = false ->
  Add this elem zone =
  (mkSet (Some (length zone)) (Z.lxor (hash_ this) (hasher elem)),
   mkCons elem (data_ this) (1 + Size zone this) :: zone).
Proof. intros this elem zone H. unfold Add. now rewrite H. Qed.

Lemma Add_extends : forall this elem zone,
  extends zone (snd (Add this elem zone)).
Proof.
  intros this elem zone. unfold Add.
  destruct (contains zone this elem); simpl.
  - apply extends_refl.
  - apply extends_cons.
Qed.

Lemma Add_valid : forall this elem zone,
  valid zone (data_ this) ->
  valid (snd (Add this elem zone)) (data_ (fst (Add this elem zone))).
Proof.
  intros this elem zone Hv. unfold Add.
  destruct (contains zone this elem); simpl; [exact Hv|lia].
Qed.

Lemma Add_wf : forall this elem zone,
  wf zone -> valid zone (data_ this) -> wf (snd (Add this elem zone)).
Proof.
  intros this elem zone Hwf Hv. unfold Add.
  destruct (contains zone this elem); simpl; auto.
Qed.

Lemma Add_iter : forall this elem zone,
  iter (snd (Add this elem zone)) (fst (Add this elem zone)) =
  add_elem (iter zone this) elem.
Proof.
  intros this elem zone. unfold Add, add_elem, contains.
  destruct (existsb (fun l => equal_to l elem) (iter zone this));
    [reflexivity|].
  unfold iter. simpl. now rewrite Nat.eqb_refl.
Qed.

Lemma AddAll_cons : forall this e elems zone,
  AddAll this (e :: elems) zone =
  AddAll (fst (Add this e zone)) elems (snd (Add this e zone)).
Proof.
  intros. unfold AddAll. simpl. now destruct (Add this e zone).
Qed.

Lemma AddAll_extends : forall elems this zone,
  extends zone (snd (AddAll this elems zone)).
Proof.
  induction elems as [|e elems IH]; intros this zone.
  - apply extends_refl.
  - rewrite AddAll_cons. eapply extends_trans; [apply Add_extends|apply IH].
Qed.

(** The list a loop of [Add]s iterates over reads the same in the zone
    of every moment of the loop. *)
Lemma AddAll_iteration_stable : forall elems this zone l,
  valid zone l ->
  elements (snd (AddAll this elems zone)) l = elements zone l.
Proof.
  intros elems this zone l Hv.
  apply elements_extends; [exact Hv|apply AddAll_extends].
Qed.

Lemma AddAll_valid : forall elems this zone,
  valid zone (data_ this) ->
  valid (snd (AddAll this elems zone)) (data_ (fst (AddAll this elems zone))).
Proof.
  induction elems as [|e elems IH]; intros this zone Hv; [exact Hv|].
  rewrite AddAll_cons. apply IH. now apply Add_valid.
Qed.

Lemma AddAll_wf : forall elems this zone,
  wf zone -> valid zone (data_ this) -> wf (snd (AddAll this elems zone)).
Proof.
  induction elems as [|e elems IH]; intros this zone Hwf Hv; [exact Hwf|].
  rewrite AddAll_cons. apply IH; [now apply Add_wf|now apply Add_valid].
Qed.

Lemma AddAll_iter : forall elems this zone,
  iter (snd (AddAll this elems zone)) (fst (AddAll this elems zone)) =
  fold_left add_elem elems (iter zone this).
Proof.
  induction elems as [|e elems IH]; intros this zone; [reflexivity|].
  rewrite AddAll_cons. simpl. now rewrite IH, Add_iter.
Qed.

(** The two sides of a [Union] that does work: the list that becomes the
    tail of the receiver, and the list whose elements are added to it.  On
    equal sizes the receiver's own list stays. *)
Definition tail_side (zone : Zone T) (this other : FunctionalSet)
  : FunctionalList :=
  if Size zone this <? Size zone other then data_ other else data_ this.

Definition added_side (zone : Zone T) (this other : FunctionalSet)
  : FunctionalList :=
  if Size zone this <? Size zone other then data_ this else data_ other.

Lemma Union_same : forall this other zone,
  TriviallyEquals (data_ this) (data_ other) = true ->
  Union this other zone = (this, zone).
Proof. intros this other zone H. unfold Union. now rewrite H. Qed.

Lemma Union_differ : forall this other zone,
  TriviallyEquals (data_ this) (data_ other) = false ->
  Union this other zone =
  AddAll (mkSet (tail_side zone this other) (hash_ this))
         (elements zone (added_side zone this other)) zone.
Proof.
  intros this other zone H. unfold Union, tail_side, added_side, Size.
  rewrite H. simpl.
  now destruct (FunctionalList.Size zone (data_ this)
                <? FunctionalList.Size zone (data_ other)).
Qed.

Lemma tail_side_valid : forall zone this other,
  valid zone (data_ this) -> valid zone (data_ other) ->
  valid zone (tail_side zone this other).
Proof.
  intros zone this other Ht Ho. unfold tail_side.
  now destruct (Size zone this <? Size zone other).
Qed.

Lemma Union_extends : forall this other zone,
  extends zone (snd (Union this other zone)).
Proof.
  intros this other zone.
  destruct (TriviallyEquals (data_ this) (data_ other)) eqn:E.
  - rewrite Union_same by exact E. apply extends_refl.
  - rewrite Union_differ by exact E. apply AddAll_extends.
Qed.

Lemma Union_valid : forall this other zone,
  valid zone (data_ this) -> valid zone (data_ other) ->
  valid (snd (Union this other zone)) (data_ (fst (Union this other zone))).
Proof.
  intros this other zone Ht Ho.
  destruct (TriviallyEquals (data_ this) (data_ other)) eqn:E.
  - rewrite Union_same by exact E. exact Ht.
  - rewrite Union_differ by exact E. apply AddAll_valid. simpl.
    now apply tail_side_valid.
Qed.

Lemma Union_wf : forall this other zone,
  wf zone -> valid zone (data_ this) -> valid zone (data_ other) ->
  wf (snd (Union this other zone)).
Proof.
  intros this other zone Hwf Ht Ho.
  destruct (TriviallyEquals (data_ this) (data_ other)) eqn:E.
  - rewrite Union_same by exact E. exact Hwf.
  - rewrite Union_differ by exact E. apply AddAll_wf; [exact Hwf|]. simpl.
    now apply tail_side_valid.
Qed.

Lemma Union_iter : forall this other zone,
  TriviallyEquals (data_ this) (data_ other) = false ->
  iter (snd (Union this other zone)) (fst (Union this other zone)) =
  fold_left add_elem (elements zone (added_side zone this other))
            (elements zone (tail_side zone this other)).
Proof.
  intros this other zone E. rewrite Union_differ by exact E.
  now rewrite AddAll_iter.
Qed.

(** Whichever way the sides are chosen, the two lists are the receiver's
    and the argument's. *)
Lemma sides_cover : forall zone this other (P : list T -> list T -> Prop),
  P (iter zone this) (iter zone other) ->
  P (iter zone other) (iter zone this) ->
  P (elements zone (tail_side zone this other))
    (elements zone (added_side zone this other)).
Proof.
  intros zone this other P H1 H2. unfold tail_side, added_side.
  now destruct (Size zone this <? Size zone other).
Qed.

Lemma Union_distinct : forall this other zone,
  distinct (iter zone this) -> distinct (iter zone other) ->
  distinct (iter (snd (Union this other zone)) (fst (Union this other zone))).
Proof.
  intros this other zone Ht Ho.
  destruct (TriviallyEquals (data_ this) (data_ other)) eqn:E.
  - rewrite Union_same by exact E. exact Ht.
  - rewrite Union_iter by exact E. apply fold_add_elem_distinct.
    apply (sides_cover zone this other (fun tl _ => distinct tl)); assumption.
Qed.

Lemma xor_hashes_app : forall l1 l2,
  xor_hashes (l1 ++ l2) = Z.lxor (xor_hashes l1) (xor_hashes l2).
Proof.
  induction l1 as [|a l1 IH]; intros l2; simpl.
  - reflexivity.
  - rewrite IH, !Z.lxor_assoc. f_equal. apply Z.lxor_comm.
Qed.

(** The running hash after a run of [Add]s: the hash before, combined with
    the hashes of the elements that were really pushed. *)
Lemma AddAll_hash : forall elems this zone,
  exists added,
    iter (snd (AddAll this elems zone)) (fst (AddAll this elems zone)) =
    added ++ iter zone this /\
    Hash (fst (AddAll this elems zone)) =
    Z.lxor (Hash this) (xor_hashes added).
Proof.
  induction elems as [|e elems IH]; intros this zone.
  - exists []. split; [reflexivity|]. simpl. now rewrite Z.lxor_0_r.
  - rewrite AddAll_cons.
    destruct (IH (fst (Add this e zone)) (snd (Add this e zone)))
      as (added & Hi & Hh).
    rewrite Hi, Hh. unfold Add.
    destruct (contains zone this e) eqn:E; simpl.
    + exists added. split; reflexivity.
    + exists (added ++ [e]). split.
      * unfold iter. simpl. rewrite Nat.eqb_refl. now rewrite <- app_assoc.
      * unfold Hash. simpl. rewrite xor_hashes_app.
        change (xor_hashes [e]) with (Z.lxor 0 (hasher e)).
        rewrite Z.lxor_0_l, Z.lxor_assoc. f_equal. apply Z.lxor_comm.
Qed.

(* --------------------------------------------------------------------- *)
(** *** The operations, one by one                                        *)
(* --------------------------------------------------------------------- *)

(** C1.  [operator==] answers true exactly when the two backing lists are
    trivially (pointer) identical, or else the sizes are equal, the running
    hashes are equal, and each set [Includes] the other; [operator!=] is
    its negation. *)
Theorem eqb_iff : forall zone this other,
  (eqb zone this other = true <->
   TriviallyEquals (data_ this) (data_ other) = true \/
   (Size zone this = Size zone other /\
    Hash this = Hash other /\
    Includes zone this other = true /\
    Includes zone other this = true)) /\
  neqb zone this other = negb (eqb zone this other).
Proof.
  intros zone this other. split; [|reflexivity]. unfold eqb.
  rewrite orb_true_iff, !andb_true_iff, Nat.eqb_eq, Z.eqb_eq.
  tauto.
Qed.

(** [Includes] holds exactly when every element of [other] has an
    [equal_to] partner in [this]. *)
Lemma Includes_iff : forall zone this other,
  Includes zone this other = true <->
  forall x, In x (iter zone other) ->
    exists y, In y (iter zone this) /\ equal_to y x = true.
Proof.
  intros zone this other. unfold Includes, contains.
  rewrite forallb_forall. split; intros H x Hx.
  - apply existsb_exists. now apply H.
  - apply existsb_exists. now apply H.
Qed.

(** C2.  [Add] of an element that has an equal in the set changes nothing
    (the set and the zone are returned as they were); [Add] of any other
    element puts it in front of the backing list, one element longer, and
    combines its hash into the running hash by exclusive or.  Hence, for
    a reflexive equality, a second [Add] of the same element changes
    nothing: the set after [Add(e); Add(e)] is the set after [Add(e)]. *)
Theorem Add_spec : forall this elem zone,
  (contains zone this elem = true -> Add this elem zone = (this, zone)) /\
  (contains zone this elem = false ->
     iter (snd (Add this elem zone)) (fst (Add this elem zone)) =
       elem :: iter zone this /\
     Size (snd (Add this elem zone)) (fst (Add this elem zone)) =
       1 + Size zone this /\
     Hash (fst (Add this elem zone)) = Z.lxor (Hash this) (hasher elem)) /\
  (reflexive ->
     Add (fst (Add this elem zone)) elem (snd (Add this elem zone)) =
     Add this elem zone).
Proof.
  intros this elem zone. split; [apply Add_present|]. split.
  - intros E. rewrite (Add_absent _ _ _ E). unfold iter, Size, Hash. simpl.
    now rewrite Nat.eqb_refl.
  - intros Hrefl. rewrite Add_present; [now destruct (Add this elem zone)|].
    unfold contains. rewrite Add_iter. unfold add_elem.
    destruct (existsb (fun x => equal_to x elem) (iter zone this)) eqn:E.
    + exact E.
    + simpl. now rewrite Hrefl.
Qed.

(** C3.  After [Union] every element of the receiver was an element of
    the receiver or of the argument, the receiver contains exactly what
    the receiver or the argument contained, and it has no duplicates if
    they had none.  When
    the two backing lists are the same pointer the call changes nothing.
    Otherwise the list with more elements (the receiver's own on a tie)
    becomes the tail of the receiver and each element of the other list is
    [Add]ed to it in turn. *)
Theorem Union_spec : forall this other zone,
  (forall x,
     In x (iter (snd (Union this other zone)) (fst (Union this other zone))) ->
     In x (iter zone this) \/ In x (iter zone other)) /\
  (transitive -> forall x,
     contains (snd (Union this other zone)) (fst (Union this other zone)) x =
     contains zone this x || contains zone other x) /\
  (distinct (iter zone this) -> distinct (iter zone other) ->
     distinct (iter (snd (Union this other zone))
                    (fst (Union this other zone)))) /\
  (symmetric ->
     no_duplicates (iter zone this) -> no_duplicates (iter zone other) ->
     no_duplicates (iter (snd (Union this other zone))
                         (fst (Union this other zone)))) /\
  (TriviallyEquals (data_ this) (data_ other) = true ->
     Union this other zone = (this, zone)) /\
  (TriviallyEquals (data_ this) (data_ other) = false ->
     Union this other zone =
       AddAll (mkSet (tail_side zone this other) (hash_ this))
              (elements zone (added_side zone this other)) zone /\
     exists added,
       iter (snd (Union this other zone)) (fst (Union this other zone)) =
       added ++ elements zone (tail_side zone this other)) /\
  (Size zone this < Size zone other ->
     tail_side zone this other = data_ other /\
     added_side zone this other = data_ this) /\
  (Size zone other <= Size zone this ->
     tail_side zone this other = data_ this /\
     added_side zone this other = data_ other).
Proof.
  intros this other zone.
  split; [|split; [|split; [|split; [|split; [|split; [|split]]]]]].
  - intros x.
    destruct (TriviallyEquals (data_ this) (data_ other)) eqn:E.
    + rewrite Union_same by exact E. now left.
    + rewrite Union_iter by exact E. intros H.
      apply fold_add_elem_In in H. revert H.
      apply (sides_cover zone this other
               (fun tl ad => In x tl \/ In x ad ->
                             In x (iter zone this) \/ In x (iter zone other)));
        tauto.
  - intros Htr x. unfold contains.
    destruct (TriviallyEquals (data_ this) (data_ other)) eqn:E.
    + rewrite Union_same by exact E. simpl.
      apply TriviallyEquals_true in E. unfold iter. rewrite E.
      now rewrite orb_diag.
    + rewrite Union_iter by exact E.
      rewrite existsb_fold_add_elem by exact Htr.
      apply (sides_cover zone this other
               (fun tl ad => existsb (fun y => equal_to y x) tl
                             || existsb (fun y => equal_to y x) ad =
                             existsb (fun y => equal_to y x) (iter zone this)
                             || existsb (fun y => equal_to y x)
                                        (iter zone other)));
        [reflexivity|apply orb_comm].
  - apply Union_distinct.
  - intros Hsym Ht Ho. apply distinct_no_duplicates; [exact Hsym|].
    apply Union_distinct; now apply no_duplicates_distinct.
  - apply Union_same.
  - intros E. split; [now apply Union_differ|].
    rewrite Union_iter by exact E. apply fold_add_elem_suffix.
  - intros Hlt. unfold tail_side, added_side.
    apply Nat.ltb_lt in Hlt. now rewrite Hlt.
  - intros Hle. unfold tail_side, added_side.
    apply Nat.ltb_ge in Hle. now rewrite Hle.
Qed.

(* --------------------------------------------------------------------- *)
(** *** Invariants of every program                                       *)
(* --------------------------------------------------------------------- *)

(** A set is in order in a zone: its list points into the zone and holds
    no element twice. *)
Definition set_ok (zone : Zone T) (s : FunctionalSet) : Prop :=
  valid zone (data_ s) /\ distinct (iter zone s).

Definition inv (st : state) : Prop :=
  wf (zone_ st) /\ Forall (set_ok (zone_ st)) (sets_ st).

Lemma set_ok_extends : forall zone zone' s,
  set_ok zone s -> extends zone zone' -> set_ok zone' s.
Proof.
  intros zone zone' s [Hv Hd] He. split.
  - eapply valid_extends; eauto.
  - unfold iter. now rewrite (elements_extends _ zone zone' _ Hv He).
Qed.

Lemma Forall_store : forall (P : FunctionalSet -> Prop) sets i s,
  Forall P sets -> P s -> Forall P (store sets i s).
Proof.
  intros P sets. induction sets as [|hd tl IH]; intros i s Hall Hs.
  - now destruct i.
  - inversion Hall; subst. destruct i; simpl; constructor; auto.
Qed.

Lemma nth_error_store_same : forall sets i s x,
  nth_error sets i = Some x -> nth_error (store sets i s) i = Some s.
Proof.
  induction sets as [|hd tl IH]; intros [|i] s x H; simpl in *;
    try discriminate; [reflexivity|eauto].
Qed.

Lemma nth_error_store_other : forall sets i j s,
  i <> j -> nth_error (store sets i s) j = nth_error sets j.
Proof.
  induction sets as [|hd tl IH]; intros [|i] [|j] s H; simpl;
    try reflexivity; [congruence|apply IH; congruence].
Qed.

Lemma step_CallAdd : forall st i elem this,
  nth_error (sets_ st) i = Some this ->
  step st (CallAdd i elem) =
  mkState (snd (Add this elem (zone_ st)))
          (store (sets_ st) i (fst (Add this elem (zone_ st)))).
Proof.
  intros st i elem this H. simpl. rewrite H.
  now destruct (Add this elem (zone_ st)).
Qed.

Lemma step_CallUnion : forall st i j this other,
  nth_error (sets_ st) i = Some this ->
  nth_error (sets_ st) j = Some other ->
  step st (CallUnion i j) =
  mkState (snd (Union this other (zone_ st)))
          (store (sets_ st) i (fst (Union this other (zone_ st)))).
Proof.
  intros st i j this other Hi Hj. simpl. rewrite Hi, Hj.
  now destruct (Union this other (zone_ st)).
Qed.

Lemma inv_nth : forall st i s,
  inv st -> nth_error (sets_ st) i = Some s -> set_ok (zone_ st) s.
Proof.
  intros st i s [_ Hall] H. rewrite Forall_forall in Hall.
  apply Hall. eapply nth_error_In; eauto.
Qed.

Lemma step_inv : forall st o, inv st -> inv (step st o).
Proof.
  intros st o Hinv. pose proof Hinv as [Hwf Hall]. destruct o as [|i elem|i j].
  - split; [exact Hwf|]. simpl. apply Forall_app. split; [exact Hall|].
    constructor; [|constructor]. split; [exact I|].
    unfold iter. simpl. now rewrite elements_nil.
  - destruct (nth_error (sets_ st) i) as [this|] eqn:Hi;
      [|simpl; rewrite Hi; exact Hinv].
    rewrite (step_CallAdd _ _ _ _ Hi).
    destruct (inv_nth _ _ _ Hinv Hi) as [Hv Hd].
    split; simpl.
    + now apply Add_wf.
    + apply Forall_store.
      * eapply Forall_impl; [|exact Hall]. intros s Hs.
        eapply set_ok_extends; [exact Hs|apply Add_extends].
      * split; [now apply Add_valid|].
        rewrite Add_iter. now apply add_elem_distinct.
  - destruct (nth_error (sets_ st) i) as [this|] eqn:Hi;
      [|simpl; rewrite Hi; exact Hinv].
    destruct (nth_error (sets_ st) j) as [other|] eqn:Hj;
      [|simpl; rewrite Hi, Hj; exact Hinv].
    rewrite (step_CallUnion _ _ _ _ _ Hi Hj).
    destruct (inv_nth _ _ _ Hinv Hi) as [Hv Hd].
    destruct (inv_nth _ _ _ Hinv Hj) as [Hv' Hd'].
    split; simpl.
    + now apply Union_wf.
    + apply Forall_store.
      * eapply Forall_impl; [|exact Hall]. intros s Hs.
        eapply set_ok_extends; [exact Hs|apply Union_extends].
      * split; [now apply Union_valid|now apply Union_distinct].
Qed.

Lemma fold_step_inv : forall prog st, inv st -> inv (fold_left step prog st).
Proof.
  induction prog as [|o prog IH]; intros st H; simpl; [exact H|].
  apply IH. now apply step_inv.
Qed.

Lemma run_inv : forall prog, inv (run prog).
Proof.
  intros prog. apply fold_step_inv. split; [exact I|constructor].
Qed.

(** C6.  In every set that calls of [Add] and [Union] can produce from
    empty sets, no element is equal to an element that was in the list
    before it; for a symmetric equality, no two elements at different
    positions are equal; and [Size()] is the number of elements of the
    backing list. *)
Theorem reachable_invariant : forall zone s,
  reachable zone s ->
  distinct (iter zone s) /\
  (symmetric -> no_duplicates (iter zone s)) /\
  Size zone s = length (iter zone s).
Proof.
  intros zone s (prog & <- & Hin).
  destruct (run_inv prog) as [Hwf Hall].
  rewrite Forall_forall in Hall. destruct (Hall s Hin) as [Hv Hd].
  split; [exact Hd|]. split.
  - intros Hsym. now apply distinct_no_duplicates.
  - now apply Size_length.
Qed.

(** C10.  [Union] changes the receiver only.  The set passed as argument
    is the same set after the call (same list pointer, same hash), and
    read in the zone after the call it has the same elements, the same
    size and the same members as before; so has every other set of the
    program. *)
Theorem Union_preserves_argument : forall st i j k s,
  nth_error (sets_ st) k = Some s ->
  valid (zone_ st) (data_ s) ->
  (k <> i \/ k = j) ->
  nth_error (sets_ (step st (CallUnion i j))) k = Some s /\
  iter (zone_ (step st (CallUnion i j))) s = iter (zone_ st) s /\
  Size (zone_ (step st (CallUnion i j))) s = Size (zone_ st) s /\
  (forall x, contains (zone_ (step st (CallUnion i j))) s x =
             contains (zone_ st) s x).
Proof.
  intros st i j k s Hk Hv Hkij.
  assert (extends (zone_ st) (zone_ (step st (CallUnion i j)))) as He.
  { simpl. destruct (nth_error (sets_ st) i) as [this|];
      [|apply extends_refl].
    destruct (nth_error (sets_ st) j) as [other|]; [|apply extends_refl].
    pose proof (Union_extends this other (zone_ st)) as H.
    now destruct (Union this other (zone_ st)). }
  assert (iter (zone_ (step st (CallUnion i j))) s = iter (zone_ st) s) as Hi
    by (apply elements_extends; assumption).
  split; [|split; [exact Hi|split]].
  - destruct (nth_error (sets_ st) i) as [this|] eqn:Ei;
      [|simpl; rewrite Ei; exact Hk].
    destruct (nth_error (sets_ st) j) as [other|] eqn:Ej;
      [|simpl; rewrite Ei, Ej; exact Hk].
    rewrite (step_CallUnion _ _ _ _ _ Ei Ej). simpl.
    destruct (Nat.eq_dec i k) as [->|Hne].
    + destruct Hkij as [C| ->]; [congruence|].
      assert (this = other) as -> by congruence.
      rewrite Union_same by now apply TriviallyEquals_true.
      simpl. rewrite (nth_error_store_same _ _ _ _ Ei). congruence.
    + now rewrite nth_error_store_other.
  - apply Size_extends; assumption.
  - intros x. unfold contains. now rewrite Hi.
Qed.

(* --------------------------------------------------------------------- *)
(** *** The running hash                                                  *)
(* --------------------------------------------------------------------- *)

(** The running hash is the exclusive or of the hashes of the elements. *)
Definition hash_ok (zone : Zone T) (s : FunctionalSet) : Prop :=
  Hash s = xor_hashes (iter zone s).

(** [Add] keeps the running hash in step with the elements. *)
Lemma Add_hash_ok : forall this elem zone,
  hash_ok zone this ->
  hash_ok (snd (Add this elem zone)) (fst (Add this elem zone)).
Proof.
  intros this elem zone H. unfold hash_ok in *. unfold Add.
  destruct (contains zone this elem); [exact H|].
  unfold iter, Hash in *. simpl. rewrite Nat.eqb_refl. simpl. now rewrite H.
Qed.

Lemma AddAll_hash_ok : forall elems this zone,
  hash_ok zone this ->
  hash_ok (snd (AddAll this elems zone)) (fst (AddAll this elems zone)).
Proof.
  induction elems as [|e elems IH]; intros this zone H; [exact H|].
  rewrite AddAll_cons. apply IH. now apply Add_hash_ok.
Qed.

(** So does [Union] as long as the receiver's list stays the tail. *)
Lemma Union_hash_ok_unswapped : forall this other zone,
  hash_ok zone this ->
  Size zone other <= Size zone this ->
  hash_ok (snd (Union this other zone)) (fst (Union this other zone)).
Proof.
  intros this other zone H Hle.
  destruct (TriviallyEquals (data_ this) (data_ other)) eqn:E.
  - now rewrite Union_same by exact E.
  - rewrite Union_differ by exact E. apply AddAll_hash_ok.
    unfold hash_ok, tail_side, iter, Hash in *. simpl.
    apply Nat.ltb_ge in Hle. now rewrite Hle.
Qed.

(** When the lists are swapped, the receiver takes the argument's list
    as tail and keeps its own hash: the result's hash is the receiver's
    old hash combined with the hashes of the elements pushed. *)
Lemma Union_hash_swapped : forall this other zone,
  TriviallyEquals (data_ this) (data_ other) = false ->
  Size zone this < Size zone other ->
  exists added,
    iter (snd (Union this other zone)) (fst (Union this other zone)) =
    added ++ iter zone other /\
    Hash (fst (Union this other zone)) =
    Z.lxor (Hash this) (xor_hashes added).
Proof.
  intros this other zone E Hlt. rewrite Union_differ by exact E.
  unfold tail_side. apply Nat.ltb_lt in Hlt. rewrite Hlt.
  apply (AddAll_hash _ (mkSet (data_ other) (hash_ this)) zone).
Qed.

(** The swap at work, for any element type and any hash: with [{a}] as
    receiver and [{b, c}] as argument, the receiver ends with the elements
    [a], [c], [b] and the hash of nothing. *)
Lemma Union_hash_swapped_abc : forall a b c,
  equal_to b c = false -> equal_to b a = false -> equal_to c a = false ->
  let st := run [NewSet; NewSet; CallAdd 0 a; CallAdd 1 b; CallAdd 1 c;
                 CallUnion 0 1] in
  exists s,
    nth_error (sets_ st) 0 = Some s /\
    iter (zone_ st) s = [a; c; b] /\
    Hash s = 0%Z /\
    xor_hashes (iter (zone_ st) s) =
      Z.lxor (Z.lxor (hasher b) (hasher c)) (hasher a).
Proof.
  intros a b c Hbc Hba Hca.
  unfold run, Union, Add, AddAll, contains, iter, Hash; simpl.
  unfold Union, Add, AddAll, contains, iter; simpl.
  rewrite Hbc; simpl.
  unfold Union, Add, AddAll, contains, iter; simpl.
  rewrite Hca, Hba; simpl.
  eexists. split; [reflexivity|]. simpl.
  rewrite Z.lxor_nilpotent. repeat split.
Qed.

(** The values of a [size_t]. *)
Definition size_t (n : Z) : Prop := (0 <= n < 2 ^ 64)%Z.

(** Exclusive or stays within the word, so the running hash needs no
    wrap-around. *)
Lemma lxor_size_t : forall a b, size_t a -> size_t b -> size_t (Z.lxor a b).
Proof.
  intros a b [Ha Ha'] [Hb Hb'].
  assert (0 <= Z.lxor a b)%Z as Hx by (apply Z.lxor_nonneg; tauto).
  split; [exact Hx|].
  destruct (Z.eq_dec (Z.lxor a b) 0) as [->|Hne]; [reflexivity|].
  apply Z.log2_lt_pow2; [lia|].
  pose proof (Z.log2_lxor a b Ha Hb) as Hl.
  assert (forall c, 0 <= c < 2 ^ 64 -> Z.log2 c < 64)%Z as Hlog.
  { intros c [Hc Hc']. destruct (Z.eq_dec c 0) as [->|Hc0]; [reflexivity|].
    apply Z.log2_lt_pow2; lia. }
  pose proof (Hlog a (conj Ha Ha')). pose proof (Hlog b (conj Hb Hb')). lia.
Qed.

Lemma Add_hash_size_t : forall this elem zone,
  (forall x, size_t (hasher x)) -> size_t (Hash this) ->
  size_t (Hash (fst (Add this elem zone))).
Proof.
  intros this elem zone Hh Ht. unfold Add.
  destruct (contains zone this elem); [exact Ht|].
  simpl. now apply lxor_size_t.
Qed.

Lemma AddAll_hash_size_t : forall elems this zone,
  (forall x, size_t (hasher x)) -> size_t (Hash this) ->
  size_t (Hash (fst (AddAll this elems zone))).
Proof.
  induction elems as [|e elems IH]; intros this zone Hh Ht; [exact Ht|].
  rewrite AddAll_cons. apply IH; [exact Hh|now apply Add_hash_size_t].
Qed.

Lemma Union_hash_size_t : forall this other zone,
  (forall x, size_t (hasher x)) -> size_t (Hash this) ->
  size_t (Hash (fst (Union this other zone))).
Proof.
  intros this other zone Hh Ht.
  destruct (TriviallyEquals (data_ this) (data_ other)) eqn:E.
  - now rewrite Union_same by exact E.
  - rewrite Union_differ by exact E. now apply AddAll_hash_size_t.
Qed.

(** [Add] grows a set by one element at most. *)
Lemma Add_Size_le : forall this elem zone,
  Size (snd (Add this elem zone)) (fst (Add this elem zone)) <=
  1 + Size zone this.
Proof.
  intros this elem zone. unfold Add.
  destruct (contains zone this elem); [simpl; lia|].
  unfold Size. simpl. rewrite Nat.eqb_refl. simpl. lia.
Qed.

(** [Add] keeps the size counter equal to the number of elements. *)
Lemma Add_Size_length : forall this elem zone,
  Size zone this = length (iter zone this) ->
  Size (snd (Add this elem zone)) (fst (Add this elem zone)) =
  length (iter (snd (Add this elem zone)) (fst (Add this elem zone))).
Proof.
  intros this elem zone H. unfold Add.
  destruct (contains zone this elem); [exact H|].
  unfold Size, iter in *. simpl. rewrite Nat.eqb_refl. simpl. now rewrite H.
Qed.

(* --------------------------------------------------------------------- *)
(** *** Emptiness, inclusion and lookup                                   *)
(* --------------------------------------------------------------------- *)

Lemma elements_valid_nonempty : forall (zone : Zone T) p,
  p < length zone -> elements zone (Some p) <> [].
Proof.
  induction zone as [|c zone IH]; simpl; intros p Hp; [lia|].
  destruct (Nat.eqb_spec p (length zone)); [discriminate|].
  apply IH. lia.
Qed.

(** X1.  In every set that calls of [Add] and [Union] can produce,
    [IsEmpty()] answers true exactly when iteration yields nothing, and
    exactly when [Size()] is zero. *)
Theorem IsEmpty_iff : forall zone s,
  reachable zone s ->
  (IsEmpty s = true <-> iter zone s = []) /\
  (IsEmpty s = true <-> Size zone s = 0).
Proof.
  intros zone s (prog & <- & Hin).
  destruct (run_inv prog) as [Hwf Hall].
  rewrite Forall_forall in Hall. destruct (Hall s Hin) as [Hv _].
  pose proof (Size_length _ _ _ Hwf Hv) as Hs.
  unfold IsEmpty, iter, Size in *. destruct (data_ s) as [p|].
  - pose proof (elements_valid_nonempty (zone_ (run prog)) p Hv) as Hne.
    destruct (elements (zone_ (run prog)) (Some p)) as [|x l];
      [contradiction|].
    split; split; intros H; try discriminate.
    rewrite Hs in H. discriminate.
  - rewrite elements_nil. simpl. tauto.
Qed.

(** X2.  [Includes] is a preorder on sets when the equality is reflexive
    and transitive: every set includes itself, and a set that includes a
    second set includes every set the second includes. *)
Theorem Includes_preorder : forall zone a b c,
  (reflexive -> Includes zone a a = true) /\
  (transitive ->
   Includes zone a b = true -> Includes zone b c = true ->
   Includes zone a c = true).
Proof.
  intros zone a b c. split.
  - intros Hrefl. apply Includes_iff. intros x Hx. exists x. auto.
  - intros Htr Hab Hbc. rewrite Includes_iff in *. intros x Hx.
    destruct (Hbc x Hx) as (y & Hy & Hyx).
    destruct (Hab y Hy) as (z & Hz & Hzy).
    exists z. split; [exact Hz|]. eapply Htr; eauto.
Qed.

(** X3.  Lookup after insertion: once [Add(elem)] has run the set
    contains [elem] (reflexive equality), and it contains any [x] exactly
    when it contained [x] before or [elem] is equal to [x] (transitive
    equality). *)
Theorem Add_contains : forall this elem zone,
  (reflexive ->
   contains (snd (Add this elem zone)) (fst (Add this elem zone)) elem = true)
  /\
  (transitive -> forall x,
   contains (snd (Add this elem zone)) (fst (Add this elem zone)) x =
   contains zone this x || equal_to elem x).
Proof.
  intros this elem zone. unfold contains. rewrite Add_iter. split.
  - intros Hrefl. unfold add_elem.
    destruct (existsb (fun l => equal_to l elem) (iter zone this)) eqn:E;
      [exact E|].
    simpl. now rewrite Hrefl.
  - intros Htr x. now apply existsb_add_elem.
Qed.

(** X4.  [Add] changes the receiver only: every other set of the program,
    whatever cells it shares with the receiver, is the same set after
    the call and reads the same in the zone after the call. *)
Theorem Add_preserves_others : forall st i elem k s,
  nth_error (sets_ st) k = Some s ->
  valid (zone_ st) (data_ s) ->
  k <> i ->
  nth_error (sets_ (step st (CallAdd i elem))) k = Some s /\
  iter (zone_ (step st (CallAdd i elem))) s = iter (zone_ st) s /\
  Size (zone_ (step st (CallAdd i elem))) s = Size (zone_ st) s /\
  (forall x, contains (zone_ (step st (CallAdd i elem))) s x =
             contains (zone_ st) s x).
Proof.
  intros st i elem k s Hk Hv Hki.
  assert (extends (zone_ st) (zone_ (step st (CallAdd i elem)))) as He.
  { simpl. destruct (nth_error (sets_ st) i) as [this|];
      [|apply extends_refl].
    pose proof (Add_extends this elem (zone_ st)) as H.
    now destruct (Add this elem (zone_ st)). }
  assert (iter (zone_ (step st (CallAdd i elem))) s = iter (zone_ st) s)
    as Hi by (apply elements_extends; assumption).
  split; [|split; [exact Hi|split]].
  - destruct (nth_error (sets_ st) i) as [this|] eqn:Ei;
      [|simpl; rewrite Ei; exact Hk].
    rewrite (step_CallAdd _ _ _ _ Ei). simpl.
    rewrite nth_error_store_other by congruence. exact Hk.
  - apply Size_extends; assumption.
  - intros x. unfold contains. now rewrite Hi.
Qed.

(* --------------------------------------------------------------------- *)
(** *** More on [Union] and on [operator==]                               *)
(* --------------------------------------------------------------------- *)

Lemma Union_contains : forall this other zone x,
  transitive ->
  contains (snd (Union this other zone)) (fst (Union this other zone)) x =
  contains zone this x || contains zone other x.
Proof.
  intros this other zone x Htr. unfold contains.
  destruct (TriviallyEquals (data_ this) (data_ other)) eqn:E.
  - rewrite Union_same by exact E. simpl.
    apply TriviallyEquals_true in E. unfold iter. rewrite E.
    now rewrite orb_diag.
  - rewrite Union_iter by exact E.
    rewrite existsb_fold_add_elem by exact Htr.
    unfold tail_side, added_side, iter.
    destruct (Size zone this <? Size zone other);
      [apply orb_comm|reflexivity].
Qed.

Lemma contains_self : forall zone s x,
  reflexive -> In x (iter zone s) -> contains zone s x = true.
Proof.
  intros zone s x Hrefl Hx. apply existsb_exists. exists x. auto.
Qed.

Lemma Union_Includes_operands : forall this other zone,
  reflexive -> transitive ->
  valid zone (data_ this) -> valid zone (data_ other) ->
  Includes (snd (Union this other zone)) (fst (Union this other zone)) this
    = true /\
  Includes (snd (Union this other zone)) (fst (Union this other zone)) other
    = true.
Proof.
  intros this other zone Hrefl Htr Hvt Hvo.
  pose proof (Union_extends this other zone) as He.
  assert (iter (snd (Union this other zone)) this = iter zone this) as Hit
    by (apply elements_extends; assumption).
  assert (iter (snd (Union this other zone)) other = iter zone other) as Hio
    by (apply elements_extends; assumption).
  unfold Includes. rewrite !forallb_forall, Hit, Hio.
  split; intros x Hx; rewrite Union_contains by exact Htr.
  - rewrite (contains_self zone this x Hrefl Hx). reflexivity.
  - rewrite (contains_self zone other x Hrefl Hx). apply orb_true_r.
Qed.

(** X5.  After [Union] the receiver includes both operands: every element
    the receiver had, and every element of the argument, has an equal in
    the result. *)
Theorem Union_includes_both : forall this other zone,
  reflexive -> transitive ->
  valid zone (data_ this) -> valid zone (data_ other) ->
  Includes (snd (Union this other zone)) (fst (Union this other zone)) this
    = true /\
  Includes (snd (Union this other zone)) (fst (Union this other zone)) other
    = true.
Proof. exact Union_Includes_operands. Qed.

(** What a run of [Add]s allocates: one cell for each element it pushes,
    and it pushes no more elements than it is given. *)
Lemma AddAll_alloc : forall elems this zone,
  exists added,
    iter (snd (AddAll this elems zone)) (fst (AddAll this elems zone)) =
      added ++ iter zone this /\
    length added <= length elems /\
    length (snd (AddAll this elems zone)) = length zone + length added.
Proof.
  induction elems as [|e elems IH]; intros this zone.
  - exists []. simpl. repeat split; lia.
  - rewrite AddAll_cons.
    destruct (IH (fst (Add this e zone)) (snd (Add this e zone)))
      as (added & Hi & Hl & Hz).
    rewrite Hi, Hz. unfold Add.
    destruct (contains zone this e); simpl.
    + exists added. repeat split; lia.
    + exists (added ++ [e]). unfold iter. simpl.
      rewrite Nat.eqb_refl, <- app_assoc, length_app. simpl.
      repeat split; lia.
Qed.

Lemma Union_Size_alloc : forall this other zone,
  wf zone -> valid zone (data_ this) -> valid zone (data_ other) ->
  Nat.max (Size zone this) (Size zone other) <=
    Size (snd (Union this other zone)) (fst (Union this other zone)) /\
  Size (snd (Union this other zone)) (fst (Union this other zone)) <=
    Size zone this + Size zone other /\
  length (snd (Union this other zone)) <=
    length zone + Nat.min (Size zone this) (Size zone other).
Proof.
  intros this other zone Hwf Hvt Hvo.
  pose proof (Size_length _ _ _ (Union_wf _ _ _ Hwf Hvt Hvo)
                (Union_valid _ _ _ Hvt Hvo)) as Hr.
  fold (Size (snd (Union this other zone)) (fst (Union this other zone))) in Hr.
  fold (iter (snd (Union this other zone)) (fst (Union this other zone))) in Hr.
  pose proof (Size_length _ _ _ Hwf Hvt) as Ht.
  fold (Size zone this) in Ht. fold (iter zone this) in Ht.
  pose proof (Size_length _ _ _ Hwf Hvo) as Ho.
  fold (Size zone other) in Ho. fold (iter zone other) in Ho.
  rewrite Hr. clear Hr.
  destruct (TriviallyEquals (data_ this) (data_ other)) eqn:E.
  - rewrite Union_same by exact E. simpl.
    apply TriviallyEquals_true in E.
    assert (Size zone other = Size zone this) as ->
      by (unfold Size; now rewrite E).
    fold (iter zone this). lia.
  - rewrite Union_differ by exact E.
    destruct (AddAll_alloc (elements zone (added_side zone this other))
                (mkSet (tail_side zone this other) (hash_ this)) zone)
      as (added & Hi & Hl & Hz).
    rewrite Hi, Hz, length_app.
    change (iter zone (mkSet (tail_side zone this other) (hash_ this)))
      with (elements zone (tail_side zone this other)).
    revert Hl. unfold tail_side, added_side.
    destruct (Nat.ltb_spec (Size zone this) (Size zone other)) as [Hlt|Hge];
      intros Hl.
    + fold (iter zone this) in Hl. fold (iter zone other). lia.
    + fold (iter zone other) in Hl. fold (iter zone this). lia.
Qed.

(** X6.  Sizes and allocation of [Union], in a well-formed zone: the
    result is at least as large as the larger operand and at most as
    large as the two together, and the call allocates at most as many
    cells as the smaller operand has elements. *)
Theorem Union_size_bounds : forall this other zone,
  wf zone -> valid zone (data_ this) -> valid zone (data_ other) ->
  Nat.max (Size zone this) (Size zone other) <=
    Size (snd (Union this other zone)) (fst (Union this other zone)) /\
  Size (snd (Union this other zone)) (fst (Union this other zone)) <=
    Size zone this + Size zone other /\
  length (snd (Union this other zone)) <=
    length zone + Nat.min (Size zone this) (Size zone other).
Proof. exact Union_Size_alloc. Qed.

Lemma AddAll_noop : forall elems this zone,
  forallb (fun e => contains zone this e) elems = true ->
  AddAll this elems zone = (this, zone).
Proof.
  induction elems as [|e elems IH]; intros this zone H; [reflexivity|].
  simpl in H. apply andb_true_iff in H as [He Hrest].
  rewrite AddAll_cons, (Add_present _ _ _ He). simpl. now apply IH.
Qed.

Lemma Union_included : forall this other zone,
  Includes zone this other = true ->
  Size zone other <= Size zone this ->
  Union this other zone = (this, zone).
Proof.
  intros this other zone Hinc Hle.
  destruct (TriviallyEquals (data_ this) (data_ other)) eqn:E;
    [now apply Union_same|].
  rewrite Union_differ by exact E. unfold tail_side, added_side.
  apply Nat.ltb_ge in Hle. rewrite Hle.
  rewrite AddAll_noop; [now destruct this|]. exact Hinc.
Qed.

(** X7.  [Union] with an argument the receiver already includes, and
    that is not larger than the receiver, changes nothing and allocates
    nothing; in particular [Union] with an empty set does. *)
Theorem Union_noop_included : forall this other zone,
  (Includes zone this other = true ->
   Size zone other <= Size zone this ->
   Union this other zone = (this, zone)) /\
  Union this empty zone = (this, zone).
Proof.
  intros this other zone.
  split; [apply Union_included|]. apply Union_included.
  - unfold Includes, iter. simpl. now rewrite elements_nil.
  - unfold Size at 1. simpl. lia.
Qed.

(** X13.  Merging twice is merging once: after [this.Union(other)], a
    further [Union] of the result with [other], or with the receiver as
    it was before, changes nothing and allocates nothing. *)
Theorem Union_idempotent : forall this other zone,
  reflexive -> transitive ->
  wf zone -> valid zone (data_ this) -> valid zone (data_ other) ->
  Union (fst (Union this other zone)) other (snd (Union this other zone)) =
    Union this other zone /\
  Union (fst (Union this other zone)) this (snd (Union this other zone)) =
    Union this other zone.
Proof.
  intros this other zone Hrefl Htr Hwf Hvt Hvo.
  destruct (Union_Includes_operands this other zone Hrefl Htr Hvt Hvo)
    as [Hit Hio].
  destruct (Union_Size_alloc this other zone Hwf Hvt Hvo) as (Hmax & _ & _).
  pose proof (Union_extends this other zone) as He.
  pose proof (Size_extends _ _ _ _ Hvt He) as Hst.
  pose proof (Size_extends _ _ _ _ Hvo He) as Hso.
  fold (Size (snd (Union this other zone)) this) in Hst.
  fold (Size zone this) in Hst.
  fold (Size (snd (Union this other zone)) other) in Hso.
  fold (Size zone other) in Hso.
  split; rewrite Union_included;
    try (now destruct (Union this other zone)); try assumption; lia.
Qed.

(** X8.  [Union] into an empty set copies nothing: the receiver takes
    over the argument's own list, no cell is allocated, and the result
    compares equal to the argument. *)
Theorem Union_into_empty : forall other zone,
  wf zone -> valid zone (data_ other) ->
  data_ (fst (Union empty other zone)) = data_ other /\
  snd (Union empty other zone) = zone /\
  eqb (snd (Union empty other zone)) (fst (Union empty other zone)) other
    = true.
Proof.
  intros other zone Hwf Hv.
  assert (data_ (fst (Union empty other zone)) = data_ other /\
          snd (Union empty other zone) = zone) as [Hd Hz].
  { destruct (TriviallyEquals (data_ empty) (data_ other)) eqn:E.
    - rewrite Union_same by exact E. apply TriviallyEquals_true in E. auto.
    - rewrite Union_differ by exact E. unfold tail_side, added_side.
      assert ((Size zone empty <? Size zone other) = true) as ->.
      { apply Nat.ltb_lt. unfold Size. simpl.
        rewrite (Size_length _ _ _ Hwf Hv).
        destruct (data_ other) as [p|]; [|discriminate].
        pose proof (elements_valid_nonempty zone p Hv).
        destruct (elements zone (Some p)); [contradiction|simpl; lia]. }
      simpl. rewrite elements_nil. auto. }
  split; [exact Hd|]. split; [exact Hz|].
  unfold eqb. rewrite Hd.
  now rewrite (proj2 (TriviallyEquals_true (data_ other) (data_ other)) eq_refl).
Qed.

Lemma TriviallyEquals_sym : forall l other : FunctionalList,
  TriviallyEquals l other = TriviallyEquals other l.
Proof. intros [p|] [q|]; simpl; auto. apply Nat.eqb_sym. Qed.

(** X9.  [operator==] is reflexive and symmetric, for any equality and
    any hash. *)
Theorem eqb_refl_sym : forall zone a b,
  eqb zone a a = true /\ eqb zone a b = eqb zone b a.
Proof.
  intros zone a b. unfold eqb. split.
  - now rewrite (proj2 (TriviallyEquals_true (data_ a) (data_ a)) eq_refl).
  - rewrite (TriviallyEquals_sym (data_ a)), (Nat.eqb_sym (Size zone a)),
      (Z.eqb_sym (Hash a)).
    rewrite <- !andb_assoc. now rewrite (andb_comm (Includes zone a b)).
Qed.

(** X10.  [operator==] is sound for a transitive equality: two sets that
    compare equal have the same size and contain the same things. *)
Theorem eqb_sound : forall zone a b,
  transitive ->
  eqb zone a b = true ->
  Size zone a = Size zone b /\
  (forall x, contains zone a x = contains zone b x).
Proof.
  intros zone a b Htr H. unfold eqb in H.
  apply orb_true_iff in H as [H|H].
  - apply TriviallyEquals_true in H. unfold Size, contains, iter.
    rewrite H. auto.
  - rewrite !andb_true_iff in H. destruct H as (((Hs & _) & Hab) & Hba).
    apply Nat.eqb_eq in Hs. split; [exact Hs|].
    assert (forall s t x, Includes zone t s = true ->
              contains zone s x = true -> contains zone t x = true) as Hmono.
    { intros s t x Hinc Hc. rewrite Includes_iff in Hinc.
      apply existsb_exists in Hc as (y & Hy & Hyx).
      destruct (Hinc y Hy) as (z & Hz & Hzy).
      apply existsb_exists. exists z. split; [exact Hz|]. eapply Htr; eauto. }
    intros x. destruct (contains zone a x) eqn:Ea.
    + symmetry. eapply Hmono; eauto.
    + destruct (contains zone b x) eqn:Eb; [|reflexivity].
      rewrite (Hmono b a x Hab Eb) in Ea. discriminate.
Qed.

(* --------------------------------------------------------------------- *)
(** *** The running hash of sets built by [Add]                           *)
(* --------------------------------------------------------------------- *)

(** Equal elements hash equally. *)
Definition hash_respects : Prop :=
  forall x y, equal_to x y = true -> hasher x = hasher y.

(** X11.  [Add] keeps the running hash equal to the exclusive or of the
    hashes of the elements, and so does [Union] whenever the argument is
    not larger than the receiver (the receiver's list stays the tail). *)
Theorem hash_ok_kept : forall this other elem zone,
  hash_ok zone this ->
  hash_ok (snd (Add this elem zone)) (fst (Add this elem zone)) /\
  (Size zone other <= Size zone this ->
   hash_ok (snd (Union this other zone)) (fst (Union this other zone))).
Proof.
  intros this other elem zone H. split.
  - now apply Add_hash_ok.
  - intros Hle.
    destruct (TriviallyEquals (data_ this) (data_ other)) eqn:E.
    + now rewrite Union_same by exact E.
    + rewrite Union_differ by exact E. apply AddAll_hash_ok.
      unfold hash_ok, tail_side, iter, Hash in *. simpl.
      apply Nat.ltb_ge in Hle. now rewrite Hle.
Qed.

Lemma distinct_remove : forall p y q,
  symmetric ->
  distinct (p ++ y :: q) ->
  distinct (p ++ q) /\ (forall z, In z (p ++ q) -> equal_to z y = false).
Proof.
  intros p y q Hsym. induction p as [|a p IH]; simpl; intros Hd.
  - destruct Hd as [Hy Hq]. auto.
  - destruct Hd as [Ha Hd]. destruct (IH Hd) as [Hd' Hfresh].
    split; [split; [|exact Hd']|].
    + intros z Hz. apply Ha. apply in_app_or in Hz as [Hz|Hz];
        apply in_or_app; [now left|right; now right].
    + intros z [<-|Hz]; [|now apply Hfresh].
      rewrite Hsym. apply Ha. apply in_or_app. right. now left.
Qed.

(** Two duplicate-free sequences that cover each other, up to the
    equality, have the same length and the same combined hash, in
    whatever order their elements come. *)
Lemma distinct_cover_same : forall l1 l2,
  symmetric -> transitive -> hash_respects ->
  distinct l1 -> distinct l2 ->
  (forall x, In x l1 -> exists y, In y l2 /\ equal_to y x = true) ->
  (forall y, In y l2 -> exists x, In x l1 /\ equal_to x y = true) ->
  length l1 = length l2 /\ xor_hashes l1 = xor_hashes l2.
Proof.
  intros l1 l2 Hsym Htr Hh. revert l2.
  induction l1 as [|x l1 IH]; intros l2 Hd1 Hd2 H12 H21.
  - destruct l2 as [|y l2]; [auto|].
    destruct (H21 y (or_introl eq_refl)) as (x & [] & _).
  - destruct (H12 x (or_introl eq_refl)) as (y & Hy & Hyx).
    apply in_split in Hy as (p & q & ->).
    destruct (distinct_remove p y q Hsym Hd2) as [Hd2' Hfresh].
    destruct Hd1 as [Hx Hd1'].
    destruct (IH (p ++ q) Hd1' Hd2') as [Hlen Hxor].
    + intros x' Hx'.
      destruct (H12 x' (or_intror Hx')) as (y' & Hy' & Hy'x').
      apply in_app_or in Hy' as [Hy'|[<-|Hy']].
      * exists y'. split; [apply in_or_app; now left|exact Hy'x'].
      * exfalso. assert (equal_to x' x = true) as C.
        { apply (Htr x' y x); [rewrite Hsym; exact Hy'x'|exact Hyx]. }
        rewrite (Hx x' Hx') in C. discriminate.
      * exists y'. split; [apply in_or_app; now right|exact Hy'x'].
    + intros y' Hy'.
      assert (In y' (p ++ y :: q)) as Hin.
      { apply in_app_or in Hy' as [Hy'|Hy']; apply in_or_app;
          [now left|right; now right]. }
      destruct (H21 y' Hin) as (x' & [<-|Hx'] & Hx'y').
      * exfalso. assert (equal_to y y' = true) as C
          by (apply (Htr y x y'); assumption).
        rewrite Hsym, (Hfresh y' Hy') in C. discriminate.
      * exists x'. auto.
    + split.
      * rewrite length_app in *. simpl. lia.
      * simpl. rewrite Hxor, !xor_hashes_app. simpl.
        rewrite (Hh y x Hyx). now rewrite Z.lxor_assoc.
Qed.

(** Programs that never call [Union]. *)
Definition add_only (prog : list op) : Prop :=
  Forall (fun o => match o with
                   | CallUnion _ _ => False
                   | _ => True
                   end) prog.

Lemma hash_ok_extends : forall zone zone' s,
  valid zone (data_ s) -> hash_ok zone s -> extends zone zone' ->
  hash_ok zone' s.
Proof.
  intros zone zone' s Hv H He. unfold hash_ok, iter in *.
  now rewrite (elements_extends _ zone zone' _ Hv He).
Qed.

Lemma fold_step_hash_ok : forall prog st,
  add_only prog -> inv st -> Forall (hash_ok (zone_ st)) (sets_ st) ->
  Forall (hash_ok (zone_ (fold_left step prog st)))
         (sets_ (fold_left step prog st)).
Proof.
  induction prog as [|o prog IH]; intros st Hprog Hinv Hall; [exact Hall|].
  inversion Hprog as [|? ? Ho Hprog']; subst. simpl fold_left.
  apply IH; [exact Hprog'|now apply step_inv|].
  destruct o as [|i elem|i j]; [| |contradiction].
  - simpl. apply Forall_app. split; [exact Hall|].
    constructor; [|constructor]. unfold hash_ok, iter. simpl.
    now rewrite elements_nil.
  - destruct (nth_error (sets_ st) i) as [this|] eqn:Hi;
      [|simpl; rewrite Hi; exact Hall].
    rewrite (step_CallAdd _ _ _ _ Hi). simpl.
    assert (hash_ok (zone_ st) this) as Hthis.
    { rewrite Forall_forall in Hall. apply Hall.
      eapply nth_error_In; eauto. }
    apply Forall_store; [|now apply Add_hash_ok].
    destruct Hinv as [_ Hok]. rewrite Forall_forall in *.
    intros s Hs. eapply hash_ok_extends;
      [apply (Hok s Hs)|now apply Hall|apply Add_extends].
Qed.

(** X12.  Sets built by [Add] alone, with an equality that is an
    equivalence and a hash that respects it: the running hash is the
    exclusive or of the hashes of the elements, and [operator==] holds
    exactly when each set includes the other, in whatever order the
    elements were added. *)
Theorem add_only_eqb_iff : forall prog a b,
  reflexive -> symmetric -> transitive -> hash_respects ->
  add_only prog ->
  In a (sets_ (run prog)) -> In b (sets_ (run prog)) ->
  hash_ok (zone_ (run prog)) a /\
  (eqb (zone_ (run prog)) a b = true <->
   Includes (zone_ (run prog)) a b = true /\
   Includes (zone_ (run prog)) b a = true).
Proof.
  intros prog a b Hrefl Hsym Htr Hh Hprog Ha Hb.
  pose proof (run_inv prog) as Hinv.
  assert (Forall (hash_ok (zone_ (run prog))) (sets_ (run prog))) as Hhash.
  { apply fold_step_hash_ok; [exact Hprog| |constructor].
    split; [exact I|constructor]. }
  destruct Hinv as [Hwf Hok]. rewrite Forall_forall in Hok, Hhash.
  destruct (Hok a Ha) as [Hva Hda]. destruct (Hok b Hb) as [Hvb Hdb].
  pose proof (Hhash a Ha) as Hha. pose proof (Hhash b Hb) as Hhb.
  split; [exact Hha|]. unfold eqb. split.
  - intros H. apply orb_true_iff in H as [H|H].
    + apply TriviallyEquals_true in H.
      assert (iter (zone_ (run prog)) a = iter (zone_ (run prog)) b) as Hi
        by (unfold iter; now rewrite H).
      unfold Includes, contains. rewrite Hi.
      assert (forallb
                (fun o => existsb (fun l => equal_to l o)
                                  (iter (zone_ (run prog)) b))
                (iter (zone_ (run prog)) b) = true) as ->; [|auto].
      apply forallb_forall. intros x Hx. apply existsb_exists. eauto.
    + rewrite !andb_true_iff in H. tauto.
  - intros [Hab Hba]. apply orb_true_iff. right.
    rewrite Hab, Hba, !andb_true_r.
    rewrite Includes_iff in Hab, Hba.
    destruct (distinct_cover_same _ _ Hsym Htr Hh Hda Hdb Hba Hab)
      as [Hlen Hxor].
    apply andb_true_iff. split.
    + apply Nat.eqb_eq. unfold Size.
      rewrite (Size_length _ _ _ Hwf Hva), (Size_length _ _ _ Hwf Hvb).
      exact Hlen.
    + apply Z.eqb_eq. unfold hash_ok in Hha, Hhb. now rewrite Hha, Hhb.
Qed.

(* --------------------------------------------------------------------- *)
(** *** Emptiness after the operations, and the range of the hash         *)
(* --------------------------------------------------------------------- *)

Lemma Add_not_empty : forall this elem zone,
  IsEmpty (fst (Add this elem zone)) = false.
Proof.
  intros this elem zone. unfold Add.
  destruct (contains zone this elem) eqn:E; [|reflexivity].
  unfold contains, iter, IsEmpty in *. simpl.
  destruct (data_ this); [reflexivity|].
  rewrite elements_nil in E. discriminate.
Qed.

Lemma AddAll_not_empty : forall elems this zone,
  IsEmpty this = false -> IsEmpty (fst (AddAll this elems zone)) = false.
Proof.
  induction elems as [|e elems IH]; intros this zone H; [exact H|].
  rewrite AddAll_cons. apply IH. apply Add_not_empty.
Qed.

(** X16.  A set is never empty after [Add]; after [Union] it is empty
    exactly when both operands were. *)
Theorem IsEmpty_after : forall this other elem zone,
  IsEmpty (fst (Add this elem zone)) = false /\
  (valid zone (data_ other) ->
   IsEmpty (fst (Union this other zone)) = IsEmpty this && IsEmpty other).
Proof.
  intros this other elem zone. split; [apply Add_not_empty|]. intros Hv.
  destruct (TriviallyEquals (data_ this) (data_ other)) eqn:E.
  - rewrite Union_same by exact E. apply TriviallyEquals_true in E.
    unfold IsEmpty. simpl. rewrite E. now destruct (data_ other).
  - rewrite Union_differ by exact E. unfold tail_side, added_side.
    unfold IsEmpty at 2 3.
    destruct (data_ this) as [p|] eqn:Et, (data_ other) as [q|] eqn:Eo;
      try discriminate; simpl andb.
    + destruct (Size zone this <? Size zone other);
        now apply AddAll_not_empty.
    + assert ((Size zone this <? Size zone other) = false) as ->
        by (apply Nat.ltb_ge; unfold Size at 1; rewrite Eo; simpl; lia).
      now apply AddAll_not_empty.
    + destruct (Size zone this <? Size zone other);
        [now apply AddAll_not_empty|].
      pose proof (elements_valid_nonempty zone q Hv) as Hne.
      destruct (elements zone (Some q)) as [|x l]; [contradiction|].
      rewrite AddAll_cons. apply AddAll_not_empty, Add_not_empty.
Qed.

(** X17.  With a hasher whose values are [size_t]s, the running hash of
    a set stays a [size_t] through [Add] and [Union]: combining by
    exclusive or never overflows the word. *)
Theorem Hash_size_t_kept : forall this other elem zone,
  (forall x, size_t (hasher x)) -> size_t (Hash this) ->
  size_t (Hash (fst (Add this elem zone))) /\
  size_t (Hash (fst (Union this other zone))).
Proof.
  intros this other elem zone Hh Ht. split.
  - now apply Add_hash_size_t.
  - now apply Union_hash_size_t.
Qed.

End WithElement.

Arguments Size {T} zone this.
Arguments iter {T} zone this.
Arguments contains {T} equal_to zone this elem.
Arguments Add {T} equal_to hasher this elem zone.
Arguments AddAll {T} equal_to hasher this elems zone.
Arguments Union {T} equal_to hasher this other zone.
Arguments Includes {T} equal_to zone this other.
Arguments eqb {T} equal_to zone this other.
Arguments neqb {T} equal_to zone this other.
Arguments xor_hashes {T} hasher l.
Arguments distinct {T} equal_to l.
Arguments add_elem {T} equal_to l elem.
Arguments no_duplicates {T} equal_to l.
Arguments reflexive {T} equal_to.
Arguments symmetric {T} equal_to.
Arguments transitive {T} equal_to.
Arguments tail_side {T} zone this other.
Arguments added_side {T} zone this other.
Arguments set_ok {T} equal_to zone s.
Arguments inv {T} equal_to st.
Arguments hash_ok {T} hasher zone s.
Arguments hash_respects {T} equal_to hasher.
Arguments add_only {T} prog.
Arguments NewSet {T}.
Arguments CallAdd {T} i elem.
Arguments CallUnion {T} i j.
Arguments zone_ {T} s.
Arguments sets_ {T} s.
Arguments init {T}.
Arguments step {T} equal_to hasher st o.
Arguments run {T} equal_to hasher prog.
Arguments reachable {T} equal_to hasher zone s.

(* --------------------------------------------------------------------- *)
(** *** Sets of addresses                                                 *)
(* --------------------------------------------------------------------- *)

(** The sets of the header compare handles by address.  Here the elements
    are addresses, equal when they are the same number, and an address
    hashes to itself. *)
Definition addr_eq : Z -> Z -> bool := Z.eqb.
Definition addr_hash (a : Z) : Z := a.

Lemma addr_eq_reflexive : reflexive addr_eq.
Proof. intros x. apply Z.eqb_refl. Qed.

Lemma addr_eq_symmetric : symmetric addr_eq.
Proof. intros x y. apply Z.eqb_sym. Qed.

Lemma addr_eq_transitive : transitive addr_eq.
Proof.
  intros x y z Hxy Hyz. unfold addr_eq in *.
  apply Z.eqb_eq in Hxy, Hyz. apply Z.eqb_eq. congruence.
Qed.

(** [A = {1}] and [B = {2, 4}], each built by [Add] from an empty set. *)
Definition prog_AB : list (@op Z) :=
  [NewSet; NewSet; CallAdd 0 1%Z; CallAdd 1 2%Z; CallAdd 1 4%Z].

Definition ex_state : state Z := run addr_eq addr_hash prog_AB.
Definition ex_zone : Zone Z := zone_ ex_state.
Definition ex_A : FunctionalSet := nth 0 (sets_ ex_state) empty.
Definition ex_B : FunctionalSet := nth 1 (sets_ ex_state) empty.

(** [A' = {2}] and [B = {2, 4}], in separate cells, then [A'.Union(B)]. *)
Definition prog_subset : list (@op Z) :=
  [NewSet; NewSet; CallAdd 0 2%Z; CallAdd 1 2%Z; CallAdd 1 4%Z; CallUnion 0 1].

Ltac concrete_distinct :=
  vm_compute; repeat split; intros ? ?; intuition (subst; reflexivity).

Lemma ex_A_distinct : distinct addr_eq (iter ex_zone ex_A).
Proof. concrete_distinct. Qed.

Lemma ex_B_distinct : distinct addr_eq (iter ex_zone ex_B).
Proof. concrete_distinct. Qed.

Lemma ex_B_reachable : reachable addr_eq addr_hash ex_zone ex_B.
Proof.
  exists prog_AB. split; [reflexivity|]. vm_compute. right. left. reflexivity.
Qed.

Lemma Add_spec_witness :
  Add addr_eq addr_hash ex_B 4%Z ex_zone = (ex_B, ex_zone) /\
  (iter (snd (Add addr_eq addr_hash ex_B 7%Z ex_zone))
        (fst (Add addr_eq addr_hash ex_B 7%Z ex_zone)) =
     7%Z :: iter ex_zone ex_B /\
   Size (snd (Add addr_eq addr_hash ex_B 7%Z ex_zone))
        (fst (Add addr_eq addr_hash ex_B 7%Z ex_zone)) =
     1 + Size ex_zone ex_B /\
   Hash (fst (Add addr_eq addr_hash ex_B 7%Z ex_zone)) =
     Z.lxor (Hash ex_B) (addr_hash 7%Z)) /\
  Add addr_eq addr_hash (fst (Add addr_eq addr_hash ex_B 7%Z ex_zone)) 7%Z
      (snd (Add addr_eq addr_hash ex_B 7%Z ex_zone)) =
  Add addr_eq addr_hash ex_B 7%Z ex_zone.
Proof.
  split; [|split].
  - apply (proj1 (Add_spec Z addr_eq addr_hash ex_B 4%Z ex_zone)).
    reflexivity.
  - apply (proj1 (proj2 (Add_spec Z addr_eq addr_hash ex_B 7%Z ex_zone))).
    reflexivity.
  - apply (proj2 (proj2 (Add_spec Z addr_eq addr_hash ex_B 7%Z ex_zone))).
    exact addr_eq_reflexive.
Defined.

Lemma Union_spec_witness :
  (forall x,
     contains addr_eq (snd (Union addr_eq addr_hash ex_A ex_B ex_zone))
              (fst (Union addr_eq addr_hash ex_A ex_B ex_zone)) x =
     contains addr_eq ex_zone ex_A x || contains addr_eq ex_zone ex_B x) /\
  no_duplicates addr_eq
    (iter (snd (Union addr_eq addr_hash ex_A ex_B ex_zone))
          (fst (Union addr_eq addr_hash ex_A ex_B ex_zone))) /\
  Union addr_eq addr_hash ex_B ex_B ex_zone = (ex_B, ex_zone) /\
  (exists added,
     iter (snd (Union addr_eq addr_hash ex_A ex_B ex_zone))
          (fst (Union addr_eq addr_hash ex_A ex_B ex_zone)) =
     added ++ elements ex_zone (tail_side ex_zone ex_A ex_B)) /\
  tail_side ex_zone ex_A ex_B = data_ ex_B /\
  tail_side ex_zone ex_B ex_A = data_ ex_B.
Proof.
  pose proof (Union_spec Z addr_eq addr_hash ex_A ex_B ex_zone)
    as (_ & Hmem & _ & Hnodup & _ & Hslow & Hswap & _).
  pose proof (Union_spec Z addr_eq addr_hash ex_B ex_B ex_zone)
    as (_ & _ & _ & _ & Hfast & _).
  pose proof (Union_spec Z addr_eq addr_hash ex_B ex_A ex_zone)
    as (_ & _ & _ & _ & _ & _ & _ & Hkeep).
  split; [|split; [|split; [|split; [|split]]]].
  - apply Hmem. exact addr_eq_transitive.
  - apply Hnodup.
    + exact addr_eq_symmetric.
    + apply distinct_no_duplicates;
        [exact addr_eq_symmetric|exact ex_A_distinct].
    + apply distinct_no_duplicates;
        [exact addr_eq_symmetric|exact ex_B_distinct].
  - apply Hfast. reflexivity.
  - apply Hslow. reflexivity.
  - apply Hswap. vm_compute. lia.
  - apply Hkeep. vm_compute. lia.
Defined.

Lemma reachable_invariant_witness :
  distinct addr_eq (iter ex_zone ex_B) /\
  no_duplicates addr_eq (iter ex_zone ex_B) /\
  Size ex_zone ex_B = length (iter ex_zone ex_B).
Proof.
  destruct (reachable_invariant Z addr_eq addr_hash ex_zone ex_B ex_B_reachable)
    as (Hd & Hn & Hs).
  split; [exact Hd|]. split; [|exact Hs].
  apply Hn. exact addr_eq_symmetric.
Defined.

Lemma Union_preserves_argument_witness :
  nth_error (sets_ (step addr_eq addr_hash ex_state (CallUnion 0 1))) 1 =
    Some ex_B /\
  iter (zone_ (step addr_eq addr_hash ex_state (CallUnion 0 1))) ex_B =
    iter ex_zone ex_B /\
  Size (zone_ (step addr_eq addr_hash ex_state (CallUnion 0 1))) ex_B =
    Size ex_zone ex_B /\
  (forall x,
     contains addr_eq (zone_ (step addr_eq addr_hash ex_state (CallUnion 0 1)))
              ex_B x =
     contains addr_eq ex_zone ex_B x).
Proof.
  apply (Union_preserves_argument Z addr_eq addr_hash ex_state 0 1 1 ex_B).
  - reflexivity.
  - vm_compute. lia.
  - right. reflexivity.
Defined.

(* --------------------------------------------------------------------- *)
(** *** What the swap in [Union] does to the running hash                 *)
(* --------------------------------------------------------------------- *)

(** C9.  The running hash at [A = {1}], [B = {2, 4}] and the call
    [A.Union(B)], all three sets being built from empty sets.  [A] is the
    smaller set, so the lists are swapped: the receiver now holds [B]'s
    list and still its own hash [1]; adding [1] brings the hash to [0],
    while the elements [1], [4], [2] have hashes that combine to [7]. *)
Theorem Union_swap_loses_hash :
  reachable addr_eq addr_hash ex_zone ex_A /\
  reachable addr_eq addr_hash ex_zone ex_B /\
  iter (snd (Union addr_eq addr_hash ex_A ex_B ex_zone))
       (fst (Union addr_eq addr_hash ex_A ex_B ex_zone)) = [1; 4; 2]%Z /\
  Hash (fst (Union addr_eq addr_hash ex_A ex_B ex_zone)) = 0%Z /\
  xor_hashes addr_hash
    (iter (snd (Union addr_eq addr_hash ex_A ex_B ex_zone))
          (fst (Union addr_eq addr_hash ex_A ex_B ex_zone))) = 7%Z /\
  reachable addr_eq addr_hash
    (snd (Union addr_eq addr_hash ex_A ex_B ex_zone))
    (fst (Union addr_eq addr_hash ex_A ex_B ex_zone)).
Proof.
  split; [|split; [exact ex_B_reachable|repeat split]].
  - exists prog_AB. split; [reflexivity|]. vm_compute. left. reflexivity.
  - exists (prog_AB ++ [CallUnion 0 1]). split; [reflexivity|].
    vm_compute. left. reflexivity.
Qed.

(** C4.  Commuting [Union] at [A = {1}] and [B = {2, 4}]: [A.Union(B)]
    and [B.Union(A)] hold the same three elements, each includes the other, and [operator==] says
    they differ, because the first carries the hash [0] and the second
    the hash [7]. *)
Theorem Union_not_commutative_at_AB :
  let ab := Union addr_eq addr_hash ex_A ex_B ex_zone in
  let ba := Union addr_eq addr_hash ex_B ex_A (snd ab) in
  iter (snd ba) (fst ab) = [1; 4; 2]%Z /\
  iter (snd ba) (fst ba) = [1; 4; 2]%Z /\
  Includes addr_eq (snd ba) (fst ab) (fst ba) = true /\
  Includes addr_eq (snd ba) (fst ba) (fst ab) = true /\
  Hash (fst ab) = 0%Z /\
  Hash (fst ba) = 7%Z /\
  eqb addr_eq (snd ba) (fst ab) (fst ba) = false.
Proof. vm_compute. repeat split. Qed.

(** C5.  Equality and hashes at [A' = {2}], [B = {2, 4}] and the call
    [A'.Union(B)]: the receiver ends up on [B]'s own list, so the two sets
    are equal under [operator==], with running hashes [2] and [6].  And
    [{1}.Union({2, 4})] and [{2, 4}.Union({1})], which have the same
    members and the same size, are unequal under [operator!=]: the hash
    check rejects them. *)
Theorem eqb_true_Hash_differs :
  let st := run addr_eq addr_hash prog_subset in
  let a := nth 0 (sets_ st) empty in
  let b := nth 1 (sets_ st) empty in
  eqb addr_eq (zone_ st) a b = true /\
  Hash a = 2%Z /\ Hash b = 6%Z /\
  let ab := Union addr_eq addr_hash ex_A ex_B ex_zone in
  let ba := Union addr_eq addr_hash ex_B ex_A (snd ab) in
  Size (snd ba) (fst ab) = Size (snd ba) (fst ba) /\
  Includes addr_eq (snd ba) (fst ab) (fst ba) = true /\
  Includes addr_eq (snd ba) (fst ba) (fst ab) = true /\
  neqb addr_eq (snd ba) (fst ab) (fst ba) = true.
Proof. vm_compute. repeat split. Qed.

(* --------------------------------------------------------------------- *)
(** *** The further properties, at sets of addresses                      *)
(* --------------------------------------------------------------------- *)

Lemma addr_hash_respects : hash_respects addr_eq addr_hash.
Proof. intros x y H. apply Z.eqb_eq in H. now subst. Qed.

Lemma ex_zone_wf : wf ex_zone.
Proof. vm_compute. intuition lia. Qed.

Lemma ex_A_valid : valid ex_zone (data_ ex_A).
Proof. vm_compute. lia. Qed.

Lemma ex_B_valid : valid ex_zone (data_ ex_B).
Proof. vm_compute. lia. Qed.

(** [C = {2}] and [B = {2, 4}], in separate cells. *)
Definition sub_state : state Z :=
  run addr_eq addr_hash
      [NewSet; NewSet; CallAdd 0 2%Z; CallAdd 1 2%Z; CallAdd 1 4%Z].
Definition sub_C : FunctionalSet := nth 0 (sets_ sub_state) empty.
Definition sub_B : FunctionalSet := nth 1 (sets_ sub_state) empty.

(** [{1, 2}] and [{2, 1}]: the same elements, added in opposite order. *)
Definition prog_order : list (@op Z) :=
  [NewSet; NewSet; CallAdd 0 1%Z; CallAdd 0 2%Z; CallAdd 1 2%Z; CallAdd 1 1%Z].
Definition order_12 : FunctionalSet :=
  nth 0 (sets_ (run addr_eq addr_hash prog_order)) empty.
Definition order_21 : FunctionalSet :=
  nth 1 (sets_ (run addr_eq addr_hash prog_order)) empty.

Lemma IsEmpty_iff_witness :
  (IsEmpty ex_B = true <-> iter ex_zone ex_B = []) /\
  (IsEmpty ex_B = true <-> Size ex_zone ex_B = 0).
Proof.
  exact (IsEmpty_iff Z addr_eq addr_hash ex_zone ex_B ex_B_reachable).
Defined.

Lemma Includes_preorder_witness :
  Includes addr_eq ex_zone ex_B ex_B = true /\
  Includes addr_eq ex_zone ex_B empty = true.
Proof.
  destruct (Includes_preorder Z addr_eq ex_zone ex_B ex_B empty)
    as [Hrefl Htrans].
  split; [exact (Hrefl addr_eq_reflexive)|].
  apply (Htrans addr_eq_transitive); reflexivity.
Defined.

Lemma Add_contains_witness :
  contains addr_eq (snd (Add addr_eq addr_hash ex_B 7%Z ex_zone))
           (fst (Add addr_eq addr_hash ex_B 7%Z ex_zone)) 7%Z = true /\
  contains addr_eq (snd (Add addr_eq addr_hash ex_B 7%Z ex_zone))
           (fst (Add addr_eq addr_hash ex_B 7%Z ex_zone)) 2%Z =
  contains addr_eq ex_zone ex_B 2%Z || addr_eq 7%Z 2%Z.
Proof.
  destruct (Add_contains Z addr_eq addr_hash ex_B 7%Z ex_zone) as [H1 H2].
  split; [exact (H1 addr_eq_reflexive)|exact (H2 addr_eq_transitive 2%Z)].
Defined.

Lemma Add_preserves_others_witness :
  nth_error (sets_ (step addr_eq addr_hash ex_state (CallAdd 0 9%Z))) 1 =
    Some ex_B /\
  iter (zone_ (step addr_eq addr_hash ex_state (CallAdd 0 9%Z))) ex_B =
    iter ex_zone ex_B /\
  Size (zone_ (step addr_eq addr_hash ex_state (CallAdd 0 9%Z))) ex_B =
    Size ex_zone ex_B /\
  (forall x,
     contains addr_eq (zone_ (step addr_eq addr_hash ex_state (CallAdd 0 9%Z)))
              ex_B x =
     contains addr_eq ex_zone ex_B x).
Proof.
  apply (Add_preserves_others Z addr_eq addr_hash ex_state 0 9%Z 1 ex_B).
  - reflexivity.
  - exact ex_B_valid.
  - discriminate.
Defined.

Lemma Union_includes_both_witness :
  Includes addr_eq (snd (Union addr_eq addr_hash ex_A ex_B ex_zone))
           (fst (Union addr_eq addr_hash ex_A ex_B ex_zone)) ex_A = true /\
  Includes addr_eq (snd (Union addr_eq addr_hash ex_A ex_B ex_zone))
           (fst (Union addr_eq addr_hash ex_A ex_B ex_zone)) ex_B = true.
Proof.
  exact (Union_includes_both Z addr_eq addr_hash ex_A ex_B ex_zone
           addr_eq_reflexive addr_eq_transitive ex_A_valid ex_B_valid).
Defined.

Lemma Union_size_bounds_witness :
  Nat.max (Size ex_zone ex_A) (Size ex_zone ex_B) <=
    Size (snd (Union addr_eq addr_hash ex_A ex_B ex_zone))
         (fst (Union addr_eq addr_hash ex_A ex_B ex_zone)) /\
  Size (snd (Union addr_eq addr_hash ex_A ex_B ex_zone))
       (fst (Union addr_eq addr_hash ex_A ex_B ex_zone)) <=
    Size ex_zone ex_A + Size ex_zone ex_B /\
  length (snd (Union addr_eq addr_hash ex_A ex_B ex_zone)) <=
    length ex_zone + Nat.min (Size ex_zone ex_A) (Size ex_zone ex_B).
Proof.
  exact (Union_size_bounds Z addr_eq addr_hash ex_A ex_B ex_zone
           ex_zone_wf ex_A_valid ex_B_valid).
Defined.

Lemma Union_noop_included_witness :
  Union addr_eq addr_hash sub_B sub_C (zone_ sub_state) =
    (sub_B, zone_ sub_state) /\
  Union addr_eq addr_hash sub_B empty (zone_ sub_state) =
    (sub_B, zone_ sub_state).
Proof.
  destruct (Union_noop_included Z addr_eq addr_hash sub_B sub_C
              (zone_ sub_state)) as [Hinc Hempty].
  split; [|exact Hempty].
  apply Hinc; [reflexivity|vm_compute; lia].
Defined.

Lemma Union_into_empty_witness :
  data_ (fst (Union addr_eq addr_hash empty ex_B ex_zone)) = data_ ex_B /\
  snd (Union addr_eq addr_hash empty ex_B ex_zone) = ex_zone /\
  eqb addr_eq (snd (Union addr_eq addr_hash empty ex_B ex_zone))
      (fst (Union addr_eq addr_hash empty ex_B ex_zone)) ex_B = true.
Proof.
  exact (Union_into_empty Z addr_eq addr_hash ex_B ex_zone
           ex_zone_wf ex_B_valid).
Defined.

Lemma eqb_sound_witness :
  Size (zone_ (run addr_eq addr_hash prog_order)) order_12 =
  Size (zone_ (run addr_eq addr_hash prog_order)) order_21 /\
  (forall x,
     contains addr_eq (zone_ (run addr_eq addr_hash prog_order)) order_12 x =
     contains addr_eq (zone_ (run addr_eq addr_hash prog_order)) order_21 x).
Proof.
  apply (eqb_sound Z addr_eq (zone_ (run addr_eq addr_hash prog_order))
           order_12 order_21 addr_eq_transitive).
  reflexivity.
Defined.

Lemma hash_ok_kept_witness :
  hash_ok addr_hash (snd (Add addr_eq addr_hash ex_B 7%Z ex_zone))
          (fst (Add addr_eq addr_hash ex_B 7%Z ex_zone)) /\
  hash_ok addr_hash (snd (Union addr_eq addr_hash ex_B ex_A ex_zone))
          (fst (Union addr_eq addr_hash ex_B ex_A ex_zone)).
Proof.
  assert (hash_ok addr_hash ex_zone ex_B) as H by reflexivity.
  destruct (hash_ok_kept Z addr_eq addr_hash ex_B ex_A 7%Z ex_zone H)
    as [Hadd Hunion].
  split; [exact Hadd|]. apply Hunion. vm_compute. lia.
Defined.

Lemma add_only_eqb_iff_witness :
  hash_ok addr_hash (zone_ (run addr_eq addr_hash prog_order)) order_12 /\
  eqb addr_eq (zone_ (run addr_eq addr_hash prog_order)) order_12 order_21
  = true.
Proof.
  assert (add_only prog_order) as Hprog by (repeat constructor).
  assert (In order_12 (sets_ (run addr_eq addr_hash prog_order))) as H12
    by (vm_compute; left; reflexivity).
  assert (In order_21 (sets_ (run addr_eq addr_hash prog_order))) as H21
    by (vm_compute; right; left; reflexivity).
  destruct (add_only_eqb_iff Z addr_eq addr_hash prog_order order_12 order_21
              addr_eq_reflexive addr_eq_symmetric addr_eq_transitive
              addr_hash_respects Hprog H12 H21) as [Hh Hiff].
  split; [exact Hh|]. apply Hiff. split; reflexivity.
Defined.

Lemma Union_idempotent_witness :
  Union addr_eq addr_hash
        (fst (Union addr_eq addr_hash ex_A ex_B ex_zone)) ex_B
        (snd (Union addr_eq addr_hash ex_A ex_B ex_zone)) =
    Union addr_eq addr_hash ex_A ex_B ex_zone /\
  Union addr_eq addr_hash
        (fst (Union addr_eq addr_hash ex_A ex_B ex_zone)) ex_A
        (snd (Union addr_eq addr_hash ex_A ex_B ex_zone)) =
    Union addr_eq addr_hash ex_A ex_B ex_zone.
Proof.
  exact (Union_idempotent Z addr_eq addr_hash ex_A ex_B ex_zone
           addr_eq_reflexive addr_eq_transitive
           ex_zone_wf ex_A_valid ex_B_valid).
Defined.

Lemma IsEmpty_after_witness :
  IsEmpty (fst (Add addr_eq addr_hash empty 5%Z ex_zone)) = false /\
  IsEmpty (fst (Union addr_eq addr_hash empty ex_B ex_zone)) =
    IsEmpty empty && IsEmpty ex_B.
Proof.
  destruct (IsEmpty_after Z addr_eq addr_hash empty ex_B 5%Z ex_zone)
    as [Hadd Hunion].
  split; [exact Hadd|exact (Hunion ex_B_valid)].
Defined.

(** A hash of addresses that stays within the word. *)
Definition addr_hash64 (a : Z) : Z := (a mod 2 ^ 64)%Z.

Lemma addr_hash64_size_t : forall a, size_t (addr_hash64 a).
Proof. intros a. apply Z.mod_pos_bound. reflexivity. Qed.

Lemma Hash_size_t_kept_witness :
  size_t (Hash (fst (Add addr_eq addr_hash64 empty (-1)%Z []))) /\
  size_t (Hash (fst (Union addr_eq addr_hash64 empty empty []))).
Proof.
  apply (Hash_size_t_kept Z addr_eq addr_hash64 empty empty (-1)%Z []).
  - exact addr_hash64_size_t.
  - unfold size_t. simpl. lia.
Defined.

End FunctionalSet.

(* ===================================================================== *)
(** ** Handles and the context hint                                       *)
(* ===================================================================== *)

(** Modelled from the spec: a handle ([src/handles/handles.h], which this
    header only includes) refers to a heap object; two handles are equal
    when they refer to the same object.  A handle is the address it
    refers to. *)
Definition Handle : Type := Z.

(** Modelled from the spec: [Handle<T>::equals], reference equality. *)
Definition Handle_equals (h other : Handle) : bool := (h =? other)%Z.

(** Modelled from the spec: [Handle<T>::equal_to], the same comparison as a
    function object. *)
Definition Handle_equal_to (lhs rhs : Handle) : bool := Handle_equals lhs rhs.

(** The outcome of code guarded by a [CHECK]: a value, or the process
    dies. *)
Inductive checked (A : Type) : Type :=
| Ok (a : A)
| Fatal.

Arguments Ok {A} a.
Arguments Fatal {A}.

(** The values of an [unsigned int]. *)
Definition unsigned_int (n : Z) : Prop := (0 <= n < 2 ^ 32)%Z.

Record VirtualContext : Type := mkVirtualContext {
  distance : Z;
  context : Handle
}.

(** The conversion of a number to [unsigned int], which a caller's
    argument undergoes: the value modulo [2 ^ 32]. *)
Definition to_unsigned_int (n : Z) : Z := (n mod 2 ^ 32)%Z.

(** The constructor.  Its distance parameter is an [unsigned int]: the
    number given is converted, both fields are set, then
    [CHECK_GT(distance, 0)]. *)
Definition VirtualContext_ctor (distance_in : Z) (context_in : Handle)
  : checked VirtualContext :=
  let this := mkVirtualContext (to_unsigned_int distance_in) context_in in
  if (distance this >? 0)%Z then Ok this else Fatal.

(** [VirtualContext::operator==]. *)
Definition VirtualContext_eqb (this other : VirtualContext) : bool :=
  Handle_equals (context this) (context other)
  && (distance this =? distance other)%Z.

Section ContextHash.

(** [base::hash_combine] and [Handle<Context>::hash] are defined
    elsewhere. *)
Variable hash_combine : Z -> Z -> Z.
Variable Handle_hash : Handle -> Z.

(** [VirtualContext::Hash]. *)
Definition VirtualContext_Hash (c : VirtualContext) : Z :=
  hash_combine (distance c) (Handle_hash (context c)).

End ContextHash.

Lemma Handle_equals_iff : forall h other : Handle,
  Handle_equals h other = true <-> h = other.
Proof. intros h other. apply Z.eqb_eq. Qed.

Lemma to_unsigned_int_id : forall d, unsigned_int d -> to_unsigned_int d = d.
Proof. intros d Hd. apply Z.mod_small. exact Hd. Qed.

Lemma to_unsigned_int_range : forall d, unsigned_int (to_unsigned_int d).
Proof. intros d. apply Z.mod_pos_bound. reflexivity. Qed.

(** C8.  On an [unsigned int] distance, the constructor of
    [VirtualContext] dies when the distance is not positive, that is
    exactly on zero, and succeeds, with the fields as given, on any
    other; so every [VirtualContext] it returns has a positive distance
    (an [unsigned int] again).  A number outside the type is converted
    first: the constructor dies exactly on the multiples of [2 ^ 32].
    Two contexts are equal under [operator==] exactly when their
    handles are the same reference and their distances are the same
    number. *)
Theorem VirtualContext_checked :
  (forall d c, unsigned_int d ->
     (VirtualContext_ctor d c = Fatal <-> d = 0%Z)) /\
  (forall d c, unsigned_int d -> (d <= 0)%Z ->
     VirtualContext_ctor d c = Fatal) /\
  (forall d c, unsigned_int d -> (0 < d)%Z ->
     VirtualContext_ctor d c = Ok (mkVirtualContext d c)) /\
  (forall d c v, VirtualContext_ctor d c = Ok v -> (0 < distance v)%Z) /\
  (forall this other,
     VirtualContext_eqb this other = true <->
     Handle_equals (context this) (context other) = true /\
     distance this = distance other) /\
  (forall this other,
     VirtualContext_eqb this other = true <->
     context this = context other /\ distance this = distance other) /\
  (forall d c v, VirtualContext_ctor d c = Ok v ->
     unsigned_int (distance v) /\
     distance v = to_unsigned_int d /\ context v = c) /\
  (forall d c, VirtualContext_ctor d c = Fatal <-> to_unsigned_int d = 0%Z).
Proof.
  assert (forall d c, VirtualContext_ctor d c =
            if (to_unsigned_int d >? 0)%Z
            then Ok (mkVirtualContext (to_unsigned_int d) c) else Fatal)
    as Hctor by reflexivity.
  split; [|split; [|split; [|split; [|split; [|split; [|split]]]]]].
  - intros d c Hd. rewrite Hctor, (to_unsigned_int_id d Hd).
    destruct (Z.gtb_spec d 0) as [Hg|Hg]; split; intros Hx;
      try discriminate; try reflexivity; unfold unsigned_int in Hd; lia.
  - intros d c Hd Hle. rewrite Hctor, (to_unsigned_int_id d Hd).
    destruct (Z.gtb_spec d 0); [lia|reflexivity].
  - intros d c Hd Hlt. rewrite Hctor, (to_unsigned_int_id d Hd).
    destruct (Z.gtb_spec d 0); [reflexivity|lia].
  - intros d c v H. rewrite Hctor in H.
    destruct (Z.gtb_spec (to_unsigned_int d) 0); [|discriminate].
    injection H as <-. simpl. lia.
  - intros this other. unfold VirtualContext_eqb.
    now rewrite andb_true_iff, Z.eqb_eq.
  - intros this other. unfold VirtualContext_eqb.
    now rewrite andb_true_iff, Z.eqb_eq, Handle_equals_iff.
  - intros d c v H. rewrite Hctor in H.
    destruct (Z.gtb_spec (to_unsigned_int d) 0); [|discriminate].
    injection H as <-. simpl.
    split; [apply to_unsigned_int_range|split; reflexivity].
  - intros d c. rewrite Hctor.
    pose proof (to_unsigned_int_range d) as [Hlo _].
    destruct (Z.gtb_spec (to_unsigned_int d) 0); split; intros Hx;
      try discriminate; try reflexivity; lia.
Qed.

Lemma VirtualContext_checked_witness :
  (VirtualContext_ctor 0%Z 16%Z = Fatal <-> 0%Z = 0%Z) /\
  VirtualContext_ctor 0%Z 16%Z = Fatal /\
  VirtualContext_ctor 3%Z 16%Z = Ok (mkVirtualContext 3%Z 16%Z) /\
  (0 < distance (mkVirtualContext 3%Z 16%Z))%Z /\
  VirtualContext_eqb (mkVirtualContext 3%Z 16%Z) (mkVirtualContext 3%Z 16%Z)
  = true /\
  (unsigned_int (distance (mkVirtualContext 4294967295%Z 16%Z)) /\
   distance (mkVirtualContext 4294967295%Z 16%Z) = to_unsigned_int (-1)%Z /\
   context (mkVirtualContext 4294967295%Z 16%Z) = 16%Z) /\
  VirtualContext_ctor 4294967296%Z 16%Z = Fatal.
Proof.
  destruct VirtualContext_checked
    as (Hzero & Hfatal & Hok & Hpos & _ & Heq & Hconv & Hmult).
  assert (unsigned_int 0 /\ unsigned_int 3) as [H0 H3]
    by (unfold unsigned_int; lia).
  split; [apply Hzero; exact H0|].
  split; [apply Hfatal; [exact H0|lia]|].
  split; [apply Hok; [exact H3|lia]|].
  split; [apply (Hpos 3%Z 16%Z); reflexivity|].
  split; [apply Heq; split; reflexivity|].
  split; [apply (Hconv (-1)%Z 16%Z); reflexivity|].
  apply Hmult. reflexivity.
Defined.

(** Equal contexts hash equally, whatever the combiner. *)
Lemma VirtualContext_Hash_eqb : forall hash_combine Handle_hash this other,
  VirtualContext_eqb this other = true ->
  VirtualContext_Hash hash_combine Handle_hash this =
  VirtualContext_Hash hash_combine Handle_hash other.
Proof.
  intros hc hh this other H. unfold VirtualContext_eqb in H.
  apply andb_true_iff in H as [Hc Hd].
  apply Handle_equals_iff in Hc. apply Z.eqb_eq in Hd.
  unfold VirtualContext_Hash. now rewrite Hc, Hd.
Qed.

(** X14.  [VirtualContext::operator==] is an equivalence relation and
    [VirtualContext::Hash] gives equal contexts equal hashes, whatever
    the combiner and the hash of handles: the two are fit to be the
    equality and the hasher of a [FunctionalSet]. *)
Theorem VirtualContext_set_parameters : forall hash_combine Handle_hash,
  FunctionalSet.reflexive VirtualContext_eqb /\
  FunctionalSet.symmetric VirtualContext_eqb /\
  FunctionalSet.transitive VirtualContext_eqb /\
  FunctionalSet.hash_respects
    VirtualContext_eqb (VirtualContext_Hash hash_combine Handle_hash).
Proof.
  intros hc hh. unfold VirtualContext_eqb, Handle_equals.
  split; [|split; [|split]].
  - intros v. now rewrite !Z.eqb_refl.
  - intros v w.
    now rewrite (Z.eqb_sym (context v)), (Z.eqb_sym (distance v)).
  - intros u v w Huv Hvw.
    apply andb_true_iff in Huv as [H1 H2]. apply andb_true_iff in Hvw as [H3 H4].
    apply Z.eqb_eq in H1, H2, H3, H4. apply andb_true_iff.
    split; apply Z.eqb_eq; congruence.
  - intros v w H. now apply VirtualContext_Hash_eqb.
Qed.

(** The set of context hints of the header. *)
Definition VirtualContextsSet_reachable
  (hash_combine : Z -> Z -> Z) (Handle_hash : Handle -> Z) :=
  FunctionalSet.reachable
    VirtualContext_eqb (VirtualContext_Hash hash_combine Handle_hash).

(** X15.  A [VirtualContextsSet] built by [Add] and [Union] never holds
    the same context at the same distance twice. *)
Theorem VirtualContextsSet_no_repeats :
  forall hash_combine Handle_hash zone s i j v w,
  VirtualContextsSet_reachable hash_combine Handle_hash zone s ->
  i <> j ->
  nth_error (FunctionalSet.iter zone s) i = Some v ->
  nth_error (FunctionalSet.iter zone s) j = Some w ->
  ~ (context v = context w /\ distance v = distance w).
Proof.
  intros hc hh zone s i j v w (prog & <- & Hin) Hij Hi Hj [Hc Hd].
  destruct (FunctionalSet.run_inv _ VirtualContext_eqb
              (VirtualContext_Hash hc hh) prog) as [_ Hall].
  rewrite Forall_forall in Hall. destruct (Hall s Hin) as [_ Hdist].
  assert (FunctionalSet.symmetric VirtualContext_eqb) as Hsym.
  { intros a b. unfold VirtualContext_eqb, Handle_equals.
    now rewrite (Z.eqb_sym (context a)), (Z.eqb_sym (distance a)). }
  pose proof (FunctionalSet.distinct_no_duplicates _ VirtualContext_eqb
                _ Hsym Hdist i j v w Hij Hi Hj) as Hne.
  unfold VirtualContext_eqb, Handle_equals in Hne.
  rewrite Hc, Hd, !Z.eqb_refl in Hne. discriminate.
Qed.

(** Three calls of [Add] on one set, the first two with the same hint. *)
Definition contexts_prog : list (@FunctionalSet.op VirtualContext) :=
  [FunctionalSet.NewSet;
   FunctionalSet.CallAdd 0 (mkVirtualContext 3%Z 16%Z);
   FunctionalSet.CallAdd 0 (mkVirtualContext 3%Z 16%Z);
   FunctionalSet.CallAdd 0 (mkVirtualContext 2%Z 16%Z)].

Definition contexts_state : FunctionalSet.state VirtualContext :=
  FunctionalSet.run VirtualContext_eqb (VirtualContext_Hash Z.lxor (fun h => h))
                    contexts_prog.

Lemma VirtualContextsSet_no_repeats_witness :
  ~ (context (mkVirtualContext 2%Z 16%Z) = context (mkVirtualContext 3%Z 16%Z) /\
     distance (mkVirtualContext 2%Z 16%Z) = distance (mkVirtualContext 3%Z 16%Z)).
Proof.
  apply (VirtualContextsSet_no_repeats Z.lxor (fun h => h)
           (FunctionalSet.zone_ contexts_state)
           (nth 0 (FunctionalSet.sets_ contexts_state) FunctionalSet.empty)
           0 1).
  - exists contexts_prog. split; [reflexivity|]. vm_compute. left. reflexivity.
  - discriminate.
  - reflexivity.
  - reflexivity.
Defined.

(* ===================================================================== *)
(** ** The hint aggregate                                                 *)
(* ===================================================================== *)

Module Hints.
Import FunctionalList.
Import FunctionalSet.

(** [Hints::kMaxHintsSize]. *)
Definition kMaxHintsSize : nat := 50.

(** Modelled from the spec: an allocation arena as a [Zone*] names it,
    by its address.  The cells of all arenas live in one memory. *)
Definition ZonePtr : Type := nat.

Section WithCallables.

(** [VirtualClosure] and [VirtualBoundFunction] are only declared in the
    header, with their hashers; [std::equal_to] compares them by their
    own [operator==].  The hashes of handles and [base::hash_combine]
    are defined elsewhere. *)
Variable VirtualClosure : Type.
Variable VirtualClosure_eqb : VirtualClosure -> VirtualClosure -> bool.
Variable VirtualClosureHash : VirtualClosure -> Z.
Variable VirtualBoundFunction : Type.
Variable VirtualBoundFunction_eqb
  : VirtualBoundFunction -> VirtualBoundFunction -> bool.
Variable VirtualBoundFunctionHash : VirtualBoundFunction -> Z.
Variable Object_hash : Handle -> Z.
Variable Map_hash : Handle -> Z.
Variable hash_combine : Z -> Z -> Z.
Variable Context_hash : Handle -> Z.

(** Modelled from the spec: the allocated state of an aggregate, which the
    header only declares ([struct HintsImpl]): the five category sets
    ([ConstantsSet], [MapsSet], [VirtualClosuresSet], [VirtualContextsSet],
    [VirtualBoundFunctionsSet]) and the arena the state was allocated
    in. *)
Record HintsImpl : Type := mkHintsImpl {
  constants_ : FunctionalSet;
  maps_ : FunctionalSet;
  virtual_closures_ : FunctionalSet;
  virtual_contexts_ : FunctionalSet;
  virtual_bound_functions_ : FunctionalSet;
  zone_ : ZonePtr
}.

(** Modelled from the spec: the memory the category sets live in, the
    list cells of each category. *)
Record Memory : Type := mkMemory {
  constants_cells : Zone Handle;
  maps_cells : Zone Handle;
  virtual_closures_cells : Zone VirtualClosure;
  virtual_contexts_cells : Zone VirtualContext;
  virtual_bound_functions_cells : Zone VirtualBoundFunction
}.

(** The aggregate: [impl_] is [None] while nothing was allocated. *)
Record Hints : Type := mkHints {
  impl_ : option HintsImpl
}.

(** [Hints() = default]. *)
Definition Hints_empty : Hints := mkHints None.

Definition IsAllocated (this : Hints) : bool :=
  match impl_ this with
  | Some _ => true
  | None => false
  end.

(** Modelled from the spec: [EnsureAllocated], whose body is not in the
    header.  An allocated aggregate keeps its state; when
    [check_zone_equality] is set, it is fatal for that state to live in
    another arena than [zone].  An aggregate that is not allocated gets a
    fresh state with empty categories, in [zone].  The result is the
    state the aggregate has after the call. *)
Definition EnsureAllocated (this : Hints) (zone : ZonePtr)
  (check_zone_equality : bool) : checked HintsImpl :=
  match impl_ this with
  | Some impl =>
      if check_zone_equality && negb (zone =? zone_ impl)
      then Fatal
      else Ok impl
  | None => Ok (mkHintsImpl empty empty empty empty empty zone)
  end.

(** [EnsureShareable]: allocation without the arena check. *)
Definition EnsureShareable (this : Hints) (zone : ZonePtr) : checked Hints :=
  match EnsureAllocated this zone false with
  | Ok impl => Ok (mkHints (Some impl))
  | Fatal => Fatal
  end.

(** Modelled from the spec: the five accessors, each an empty set while
    nothing is allocated. *)
Definition constants (this : Hints) : FunctionalSet :=
  match impl_ this with
  | Some impl => constants_ impl
  | None => empty
  end.

Definition maps (this : Hints) : FunctionalSet :=
  match impl_ this with
  | Some impl => maps_ impl
  | None => empty
  end.

Definition virtual_closures (this : Hints) : FunctionalSet :=
  match impl_ this with
  | Some impl => virtual_closures_ impl
  | None => empty
  end.

Definition virtual_contexts (this : Hints) : FunctionalSet :=
  match impl_ this with
  | Some impl => virtual_contexts_ impl
  | None => empty
  end.

Definition virtual_bound_functions (this : Hints) : FunctionalSet :=
  match impl_ this with
  | Some impl => virtual_bound_functions_ impl
  | None => empty
  end.

(** Modelled from the spec: the five mutators, whose bodies are not in
    the header.  Each ensures allocation (fatal on an arena mismatch),
    then [Add]s to its category unless that category has reached
    [kMaxHintsSize], in which case the element is dropped.  The result is
    the aggregate and the memory after the call. *)
Definition AddConstant (this : Hints) (constant : Handle) (zone : ZonePtr)
  (mem : Memory) : checked (Hints * Memory) :=
  match EnsureAllocated this zone true with
  | Fatal => Fatal
  | Ok impl =>
      if kMaxHintsSize <=? Size (constants_cells mem) (constants_ impl)
      then Ok (mkHints (Some impl), mem)
      else
        let r := Add Handle_equal_to Object_hash
                     (constants_ impl) constant (constants_cells mem) in
        Ok (mkHints (Some (mkHintsImpl
                             (fst r) (maps_ impl) (virtual_closures_ impl)
                             (virtual_contexts_ impl)
                             (virtual_bound_functions_ impl) (zone_ impl))),
            mkMemory (snd r) (maps_cells mem) (virtual_closures_cells mem)
                     (virtual_contexts_cells mem)
                     (virtual_bound_functions_cells mem))
  end.

Definition AddMap (this : Hints) (map : Handle) (zone : ZonePtr)
  (check_zone_equality : bool) (mem : Memory) : checked (Hints * Memory) :=
  match EnsureAllocated this zone check_zone_equality with
  | Fatal => Fatal
  | Ok impl =>
      if kMaxHintsSize <=? Size (maps_cells mem) (maps_ impl)
      then Ok (mkHints (Some impl), mem)
      else
        let r := Add Handle_equal_to Map_hash
                     (maps_ impl) map (maps_cells mem) in
        Ok (mkHints (Some (mkHintsImpl
                             (constants_ impl) (fst r) (virtual_closures_ impl)
                             (virtual_contexts_ impl)
                             (virtual_bound_functions_ impl) (zone_ impl))),
            mkMemory (constants_cells mem) (snd r) (virtual_closures_cells mem)
                     (virtual_contexts_cells mem)
                     (virtual_bound_functions_cells mem))
  end.

Definition AddVirtualClosure (this : Hints) (virtual_closure : VirtualClosure)
  (zone : ZonePtr) (mem : Memory) : checked (Hints * Memory) :=
  match EnsureAllocated this zone true with
  | Fatal => Fatal
  | Ok impl =>
      if kMaxHintsSize
         <=? Size (virtual_closures_cells mem) (virtual_closures_ impl)
      then Ok (mkHints (Some impl), mem)
      else
        let r := Add VirtualClosure_eqb VirtualClosureHash
                     (virtual_closures_ impl) virtual_closure
                     (virtual_closures_cells mem) in
        Ok (mkHints (Some (mkHintsImpl
                             (constants_ impl) (maps_ impl) (fst r)
                             (virtual_contexts_ impl)
                             (virtual_bound_functions_ impl) (zone_ impl))),
            mkMemory (constants_cells mem) (maps_cells mem) (snd r)
                     (virtual_contexts_cells mem)
                     (virtual_bound_functions_cells mem))
  end.

Definition AddVirtualContext (this : Hints) (virtual_context : VirtualContext)
  (zone : ZonePtr) (mem : Memory) : checked (Hints * Memory) :=
  match EnsureAllocated this zone true with
  | Fatal => Fatal
  | Ok impl =>
      if kMaxHintsSize
         <=? Size (virtual_contexts_cells mem) (virtual_contexts_ impl)
      then Ok (mkHints (Some impl), mem)
      else
        let r := Add VirtualContext_eqb
                     (VirtualContext_Hash hash_combine Context_hash)
                     (virtual_contexts_ impl) virtual_context
                     (virtual_contexts_cells mem) in
        Ok (mkHints (Some (mkHintsImpl
                             (constants_ impl) (maps_ impl)
                             (virtual_closures_ impl) (fst r)
                             (virtual_bound_functions_ impl) (zone_ impl))),
            mkMemory (constants_cells mem) (maps_cells mem)
                     (virtual_closures_cells mem) (snd r)
                     (virtual_bound_functions_cells mem))
  end.

Definition AddVirtualBoundFunction (this : Hints)
  (bound_function : VirtualBoundFunction) (zone : ZonePtr) (mem : Memory)
  : checked (Hints * Memory) :=
  match EnsureAllocated this zone true with
  | Fatal => Fatal
  | Ok impl =>
      if kMaxHintsSize
         <=? Size (virtual_bound_functions_cells mem)
                  (virtual_bound_functions_ impl)
      then Ok (mkHints (Some impl), mem)
      else
        let r := Add VirtualBoundFunction_eqb VirtualBoundFunctionHash
                     (virtual_bound_functions_ impl) bound_function
                     (virtual_bound_functions_cells mem) in
        Ok (mkHints (Some (mkHintsImpl
                             (constants_ impl) (maps_ impl)
                             (virtual_closures_ impl) (virtual_contexts_ impl)
                             (fst r) (zone_ impl))),
            mkMemory (constants_cells mem) (maps_cells mem)
                     (virtual_closures_cells mem) (virtual_contexts_cells mem)
                     (snd r))
  end.

(** A caller adding constants one after the other, to the same arena; a
    fatal call ends the run. *)
Definition AddConstants (this : Hints) (cs : list Handle) (zone : ZonePtr)
  (mem : Memory) : checked (Hints * Memory) :=
  fold_left (fun st constant =>
               match st with
               | Ok (h, m) => AddConstant h constant zone m
               | Fatal => Fatal
               end) cs (Ok (this, mem)).

(* --------------------------------------------------------------------- *)
(** *** The five mutators as one                                          *)
(* --------------------------------------------------------------------- *)

(** The five hint categories. *)
Inductive category : Type :=
| Constants
| Maps
| VirtualClosures
| VirtualContexts
| VirtualBoundFunctions.

(** The element type, equality and hasher of each category's set, as the
    header's five [using] declarations give them. *)
Definition elem (c : category) : Type :=
  match c with
  | Constants => Handle
  | Maps => Handle
  | VirtualClosures => VirtualClosure
  | VirtualContexts => VirtualContext
  | VirtualBoundFunctions => VirtualBoundFunction
  end.

Definition equal_to_of (c : category) : elem c -> elem c -> bool :=
  match c return elem c -> elem c -> bool with
  | Constants => Handle_equal_to
  | Maps => Handle_equal_to
  | VirtualClosures => VirtualClosure_eqb
  | VirtualContexts => VirtualContext_eqb
  | VirtualBoundFunctions => VirtualBoundFunction_eqb
  end.

Definition hasher_of (c : category) : elem c -> Z :=
  match c return elem c -> Z with
  | Constants => Object_hash
  | Maps => Map_hash
  | VirtualClosures => VirtualClosureHash
  | VirtualContexts => VirtualContext_Hash hash_combine Context_hash
  | VirtualBoundFunctions => VirtualBoundFunctionHash
  end.

Definition impl_set (impl : HintsImpl) (c : category) : FunctionalSet :=
  match c with
  | Constants => constants_ impl
  | Maps => maps_ impl
  | VirtualClosures => virtual_closures_ impl
  | VirtualContexts => virtual_contexts_ impl
  | VirtualBoundFunctions => virtual_bound_functions_ impl
  end.

Definition with_set (impl : HintsImpl) (c : category) (s : FunctionalSet)
  : HintsImpl :=
  match c with
  | Constants =>
      mkHintsImpl s (maps_ impl) (virtual_closures_ impl)
                  (virtual_contexts_ impl) (virtual_bound_functions_ impl)
                  (zone_ impl)
  | Maps =>
      mkHintsImpl (constants_ impl) s (virtual_closures_ impl)
                  (virtual_contexts_ impl) (virtual_bound_functions_ impl)
                  (zone_ impl)
  | VirtualClosures =>
      mkHintsImpl (constants_ impl) (maps_ impl) s
                  (virtual_contexts_ impl) (virtual_bound_functions_ impl)
                  (zone_ impl)
  | VirtualContexts =>
      mkHintsImpl (constants_ impl) (maps_ impl) (virtual_closures_ impl)
                  s (virtual_bound_functions_ impl) (zone_ impl)
  | VirtualBoundFunctions =>
      mkHintsImpl (constants_ impl) (maps_ impl) (virtual_closures_ impl)
                  (virtual_contexts_ impl) s (zone_ impl)
  end.

Definition cells (mem : Memory) (c : category) : Zone (elem c) :=
  match c return Zone (elem c) with
  | Constants => constants_cells mem
  | Maps => maps_cells mem
  | VirtualClosures => virtual_closures_cells mem
  | VirtualContexts => virtual_contexts_cells mem
  | VirtualBoundFunctions => virtual_bound_functions_cells mem
  end.

Definition with_cells (mem : Memory) (c : category) : Zone (elem c) -> Memory :=
  match c return Zone (elem c) -> Memory with
  | Constants => fun z =>
      mkMemory z (maps_cells mem) (virtual_closures_cells mem)
               (virtual_contexts_cells mem) (virtual_bound_functions_cells mem)
  | Maps => fun z =>
      mkMemory (constants_cells mem) z (virtual_closures_cells mem)
               (virtual_contexts_cells mem) (virtual_bound_functions_cells mem)
  | VirtualClosures => fun z =>
      mkMemory (constants_cells mem) (maps_cells mem) z
               (virtual_contexts_cells mem) (virtual_bound_functions_cells mem)
  | VirtualContexts => fun z =>
      mkMemory (constants_cells mem) (maps_cells mem)
               (virtual_closures_cells mem) z
               (virtual_bound_functions_cells mem)
  | VirtualBoundFunctions => fun z =>
      mkMemory (constants_cells mem) (maps_cells mem)
               (virtual_closures_cells mem) (virtual_contexts_cells mem) z
  end.

(** The accessor of a category. *)
Definition category_set (this : Hints) (c : category) : FunctionalSet :=
  match impl_ this with
  | Some impl => impl_set impl c
  | None => empty
  end.

(** The mutator of a category. *)
Definition AddHint (c : category) (this : Hints) (e : elem c) (zone : ZonePtr)
  (check_zone_equality : bool) (mem : Memory) : checked (Hints * Memory) :=
  match EnsureAllocated this zone check_zone_equality with
  | Fatal => Fatal
  | Ok impl =>
      if kMaxHintsSize <=? Size (cells mem c) (impl_set impl c)
      then Ok (mkHints (Some impl), mem)
      else
        let r := Add (equal_to_of c) (hasher_of c)
                     (impl_set impl c) e (cells mem c) in
        Ok (mkHints (Some (with_set impl c (fst r))), with_cells mem c (snd r))
  end.

(** A caller adding elements to one category, one after the other. *)
Definition AddHints (c : category) (this : Hints) (es : list (elem c))
  (zone : ZonePtr) (mem : Memory) : checked (Hints * Memory) :=
  fold_left (fun st e =>
               match st with
               | Ok (h, m) => AddHint c h e zone true m
               | Fatal => Fatal
               end) es (Ok (this, mem)).

(** The aggregate is not allocated, or allocated in [zone]. *)
Definition home (this : Hints) (zone : ZonePtr) : Prop :=
  match impl_ this with
  | Some impl => zone_ impl = zone
  | None => True
  end.

(* --------------------------------------------------------------------- *)
(** *** Adding under the cap, on sequences of elements                    *)
(* --------------------------------------------------------------------- *)

(** A mutator on the sequence of elements of its category. *)
Definition capped_add {T : Type} (equal_to : T -> T -> bool) (cap : nat)
  (l : list T) (e : T) : list T :=
  if cap <=? length l then l else add_elem equal_to l e.

Lemma distinct_app_r : forall (T : Type) (equal_to : T -> T -> bool) p q,
  distinct equal_to (p ++ q) -> distinct equal_to q.
Proof.
  intros T equal_to p q. induction p as [|a p IH]; simpl; [auto|].
  intros [_ H]. auto.
Qed.

Lemma fresh_existsb_false : forall (T : Type) (equal_to : T -> T -> bool) l e,
  (forall y, In y l -> equal_to y e = false) ->
  existsb (fun x => equal_to x e) l = false.
Proof.
  intros T equal_to l e H.
  destruct (existsb (fun x => equal_to x e) l) eqn:E; [|reflexivity].
  apply existsb_exists in E as (y & Hy & Hye).
  rewrite (H y Hy) in Hye. discriminate.
Qed.

Lemma fold_capped_full : forall (T : Type) (equal_to : T -> T -> bool) cap es l,
  cap <= length l -> fold_left (capped_add equal_to cap) es l = l.
Proof.
  intros T equal_to cap es. induction es as [|e es IH]; intros l H;
    [reflexivity|].
  simpl. unfold capped_add at 2. apply Nat.leb_le in H. rewrite H.
  apply IH. now apply Nat.leb_le.
Qed.

(** Elements that are new, each to the ones before it and to the
    sequence: the first of them are pushed, up to the cap, and the rest
    dropped. *)
Lemma fold_capped_add : forall (T : Type) (equal_to : T -> T -> bool) cap es l,
  distinct equal_to (rev es ++ l) ->
  fold_left (capped_add equal_to cap) es l =
  rev (firstn (cap - length l) es) ++ l.
Proof.
  intros T equal_to cap es. induction es as [|e es IH]; intros l Hd.
  - now rewrite firstn_nil.
  - simpl in Hd. rewrite <- app_assoc in Hd. simpl in Hd.
    simpl fold_left. unfold capped_add at 2.
    destruct (Nat.leb_spec cap (length l)) as [Hle|Hlt].
    + rewrite fold_capped_full by exact Hle.
      replace (cap - length l) with 0 by lia. reflexivity.
    + pose proof (distinct_app_r _ _ _ _ Hd) as [Hfresh _].
      unfold add_elem. rewrite (fresh_existsb_false _ _ _ _ Hfresh).
      rewrite (IH (e :: l) Hd). simpl length.
      replace (cap - length l) with (S (cap - S (length l))) by lia.
      simpl. now rewrite <- app_assoc.
Qed.

Lemma NoDup_distinct : forall l : list Handle,
  NoDup l -> distinct Handle_equal_to l.
Proof.
  induction l as [|x l IH]; intros H; simpl; [exact I|].
  inversion H as [|? ? Hx Hl]; subst. split; [|now apply IH].
  intros y Hy. destruct (Handle_equal_to y x) eqn:E; [|reflexivity].
  apply Handle_equals_iff in E. subst. contradiction.
Qed.

(* --------------------------------------------------------------------- *)
(** *** What a mutator does                                               *)
(* --------------------------------------------------------------------- *)

Lemma mutators_AddHint : forall this zone mem,
  (forall e, AddConstant this e zone mem =
             AddHint Constants this e zone true mem) /\
  (forall e check, AddMap this e zone check mem =
                   AddHint Maps this e zone check mem) /\
  (forall e, AddVirtualClosure this e zone mem =
             AddHint VirtualClosures this e zone true mem) /\
  (forall e, AddVirtualContext this e zone mem =
             AddHint VirtualContexts this e zone true mem) /\
  (forall e, AddVirtualBoundFunction this e zone mem =
             AddHint VirtualBoundFunctions this e zone true mem).
Proof. intros this zone mem. repeat split. Qed.

Lemma AddConstants_AddHints : forall cs this zone mem,
  AddConstants this cs zone mem = AddHints Constants this cs zone mem.
Proof. reflexivity. Qed.

Lemma cells_with_cells : forall mem c z, cells (with_cells mem c z) c = z.
Proof. intros mem c z. now destruct c. Qed.

Lemma impl_set_with_set : forall impl c s, impl_set (with_set impl c s) c = s.
Proof. intros impl c s. now destruct c. Qed.

Lemma zone_with_set : forall impl c s, zone_ (with_set impl c s) = zone_ impl.
Proof. intros impl c s. now destruct c. Qed.

Lemma EnsureAllocated_sets : forall this zone check impl,
  EnsureAllocated this zone check = Ok impl ->
  forall c, impl_set impl c = category_set this c.
Proof.
  intros this zone check impl H c. unfold EnsureAllocated, category_set in *.
  destruct (impl_ this) as [i|].
  - destruct (check && negb (zone =? zone_ i)); [discriminate|].
    now injection H as <-.
  - injection H as <-. now destruct c.
Qed.

Lemma EnsureAllocated_home : forall this zone check,
  home this zone ->
  exists impl, EnsureAllocated this zone check = Ok impl /\ zone_ impl = zone.
Proof.
  intros this zone check H. unfold EnsureAllocated, home in *.
  destruct (impl_ this) as [i|].
  - exists i. subst zone. now rewrite Nat.eqb_refl, andb_false_r.
  - eexists. split; reflexivity.
Qed.

(** The outcomes of a mutator that returns: the element was dropped at
    the cap, or [Add]ed below it. *)
Lemma AddHint_Ok : forall c this e zone check mem this' mem',
  AddHint c this e zone check mem = Ok (this', mem') ->
  exists impl,
    EnsureAllocated this zone check = Ok impl /\
    ((kMaxHintsSize <= Size (cells mem c) (category_set this c) /\
      this' = mkHints (Some impl) /\ mem' = mem) \/
     (Size (cells mem c) (category_set this c) < kMaxHintsSize /\
      this' = mkHints (Some (with_set impl c
                (fst (Add (equal_to_of c) (hasher_of c)
                          (category_set this c) e (cells mem c))))) /\
      mem' = with_cells mem c
                (snd (Add (equal_to_of c) (hasher_of c)
                          (category_set this c) e (cells mem c))))).
Proof.
  intros c this e zone check mem this' mem' H. unfold AddHint in H.
  destruct (EnsureAllocated this zone check) as [impl|] eqn:E;
    [|discriminate].
  exists impl. split; [reflexivity|].
  rewrite (EnsureAllocated_sets _ _ _ _ E c) in H.
  destruct (Nat.leb_spec kMaxHintsSize (Size (cells mem c) (category_set this c)))
    as [Hle|Hlt]; injection H as <- <-; [left|right]; auto.
Qed.

Lemma AddHint_iter : forall c this e zone check mem this' mem',
  Size (cells mem c) (category_set this c) =
    length (iter (cells mem c) (category_set this c)) ->
  AddHint c this e zone check mem = Ok (this', mem') ->
  iter (cells mem' c) (category_set this' c) =
    capped_add (equal_to_of c) kMaxHintsSize
               (iter (cells mem c) (category_set this c)) e /\
  Size (cells mem' c) (category_set this' c) =
    length (iter (cells mem' c) (category_set this' c)).
Proof.
  intros c this e zone check mem this' mem' Hs H.
  destruct (AddHint_Ok _ _ _ _ _ _ _ _ H)
    as (impl & E & [(Hle & -> & ->)|(Hlt & -> & ->)]);
    unfold capped_add; rewrite <- Hs.
  - assert (category_set (mkHints (Some impl)) c = category_set this c) as ->
      by apply (EnsureAllocated_sets _ _ _ _ E).
    apply Nat.leb_le in Hle. rewrite Hle. auto.
  - apply Nat.leb_gt in Hlt. rewrite Hlt.
    match goal with
    | |- context [category_set (mkHints (Some (with_set impl c ?s))) c] =>
        assert (category_set (mkHints (Some (with_set impl c s))) c = s) as ->
          by apply impl_set_with_set
    end.
    rewrite cells_with_cells.
    split; [apply Add_iter|now apply Add_Size_length].
Qed.

Lemma AddHint_home : forall c this e zone check mem,
  home this zone ->
  exists this' mem',
    AddHint c this e zone check mem = Ok (this', mem') /\ home this' zone.
Proof.
  intros c this e zone check mem H.
  destruct (EnsureAllocated_home this zone check H) as (impl & E & Hz).
  unfold AddHint. rewrite E.
  destruct (kMaxHintsSize <=? Size (cells mem c) (impl_set impl c));
    eexists; eexists; (split; [reflexivity|]); unfold home; simpl;
    [exact Hz|now rewrite zone_with_set].
Qed.

Lemma AddHints_cons : forall c this e es zone mem,
  AddHints c this (e :: es) zone mem =
  match AddHint c this e zone true mem with
  | Ok (h, m) => AddHints c h es zone m
  | Fatal => Fatal
  end.
Proof.
  intros c this e es zone mem. unfold AddHints. simpl.
  destruct (AddHint c this e zone true mem) as [[h m]|]; [reflexivity|].
  induction es as [|e' es IH]; [reflexivity|exact IH].
Qed.

Lemma AddHints_iter : forall c es this zone mem,
  home this zone ->
  Size (cells mem c) (category_set this c) =
    length (iter (cells mem c) (category_set this c)) ->
  exists this' mem',
    AddHints c this es zone mem = Ok (this', mem') /\
    iter (cells mem' c) (category_set this' c) =
      fold_left (capped_add (equal_to_of c) kMaxHintsSize) es
                (iter (cells mem c) (category_set this c)) /\
    Size (cells mem' c) (category_set this' c) =
      length (iter (cells mem' c) (category_set this' c)).
Proof.
  intros c es. induction es as [|e es IH]; intros this zone mem Hh Hs.
  - exists this, mem. auto.
  - destruct (AddHint_home c this e zone true mem Hh) as (h & m & E & Hh').
    destruct (AddHint_iter _ _ _ _ _ _ _ _ Hs E) as [Hi Hs'].
    destruct (IH h zone m Hh' Hs') as (this' & mem' & E' & Hi' & Hs'').
    exists this', mem'. rewrite AddHints_cons, E.
    split; [exact E'|]. split; [|exact Hs'']. simpl. now rewrite <- Hi.
Qed.

Lemma AddHints_first : forall c (es : list (elem c)) zone mem,
  distinct (equal_to_of c) (rev es) ->
  exists this' mem',
    AddHints c Hints_empty es zone mem = Ok (this', mem') /\
    iter (cells mem' c) (category_set this' c) =
      rev (firstn kMaxHintsSize es) /\
    Size (cells mem' c) (category_set this' c) =
      Nat.min kMaxHintsSize (length es).
Proof.
  intros c es zone mem Hd.
  assert (iter (cells mem c) (category_set Hints_empty c) = []) as Hnil
    by (unfold iter; simpl; apply elements_nil).
  destruct (AddHints_iter c es Hints_empty zone mem I)
    as (this' & mem' & E & Hi & Hs).
  { now rewrite Hnil. }
  exists this', mem'. split; [exact E|].
  rewrite Hnil, fold_capped_add in Hi by now rewrite app_nil_r.
  rewrite app_nil_r, Nat.sub_0_r in Hi.
  split; [exact Hi|]. now rewrite Hs, Hi, length_rev, length_firstn.
Qed.

(** C7.  Every one of the five mutators is the capped [Add] of its
    category.  For each category: a mutator that returns on a category
    that has reached [kMaxHintsSize = 50] elements has dropped the
    element (the memory and all five categories are as before); a
    category within the cap stays within it; adding elements, each new to
    the ones before it, to a fresh aggregate retains the first 50 of them
    and no more.  In particular, of 60 distinct constants exactly 50 are
    retained, the first 50 given.  A mutator is fatal when the aggregate
    is allocated in another arena than the one given, and returns when
    the aggregate is not allocated or allocated in that arena. *)
Theorem Hints_cap :
  (forall this zone mem,
     (forall e, AddConstant this e zone mem =
                AddHint Constants this e zone true mem) /\
     (forall e check, AddMap this e zone check mem =
                      AddHint Maps this e zone check mem) /\
     (forall e, AddVirtualClosure this e zone mem =
                AddHint VirtualClosures this e zone true mem) /\
     (forall e, AddVirtualContext this e zone mem =
                AddHint VirtualContexts this e zone true mem) /\
     (forall e, AddVirtualBoundFunction this e zone mem =
                AddHint VirtualBoundFunctions this e zone true mem)) /\
  (forall c this e zone check mem this' mem',
     kMaxHintsSize <= Size (cells mem c) (category_set this c) ->
     AddHint c this e zone check mem = Ok (this', mem') ->
     mem' = mem /\
     forall c', category_set this' c' = category_set this c') /\
  (forall c this e zone check mem this' mem',
     Size (cells mem c) (category_set this c) <= kMaxHintsSize ->
     AddHint c this e zone check mem = Ok (this', mem') ->
     Size (cells mem' c) (category_set this' c) <= kMaxHintsSize) /\
  (forall c (es : list (elem c)) zone mem,
     distinct (equal_to_of c) (rev es) ->
     exists this' mem',
       AddHints c Hints_empty es zone mem = Ok (this', mem') /\
       iter (cells mem' c) (category_set this' c) =
         rev (firstn kMaxHintsSize es) /\
       Size (cells mem' c) (category_set this' c) =
         Nat.min kMaxHintsSize (length es)) /\
  (forall (cs : list Handle) zone mem,
     NoDup cs -> length cs = 60 ->
     exists this' mem',
       AddConstants Hints_empty cs zone mem = Ok (this', mem') /\
       iter (constants_cells mem') (constants this') = rev (firstn 50 cs) /\
       Size (constants_cells mem') (constants this') = 50) /\
  (forall c this e zone mem impl,
     impl_ this = Some impl -> zone_ impl <> zone ->
     AddHint c this e zone true mem = Fatal) /\
  (forall c this e zone check mem,
     home this zone ->
     exists this' mem', AddHint c this e zone check mem = Ok (this', mem')).
Proof.
  split; [exact mutators_AddHint|].
  split; [|split; [|split; [exact AddHints_first|split; [|split]]]].
  - intros c this e zone check mem this' mem' Hcap H.
    destruct (AddHint_Ok _ _ _ _ _ _ _ _ H)
      as (impl & E & [(_ & -> & ->)|(Hlt & _)]); [|lia].
    split; [reflexivity|]. intros c'.
    apply (EnsureAllocated_sets _ _ _ _ E).
  - intros c this e zone check mem this' mem' Hcap H.
    destruct (AddHint_Ok _ _ _ _ _ _ _ _ H)
      as (impl & E & [(Hle & -> & ->)|(Hlt & -> & ->)]).
    + assert (category_set (mkHints (Some impl)) c = category_set this c)
        as -> by apply (EnsureAllocated_sets _ _ _ _ E).
      exact Hcap.
    + match goal with
      | |- context [category_set (mkHints (Some (with_set impl c ?s))) c] =>
          assert (category_set (mkHints (Some (with_set impl c s))) c = s)
            as -> by apply impl_set_with_set
      end.
      rewrite cells_with_cells.
      pose proof (Add_Size_le _ (equal_to_of c) (hasher_of c)
                    (category_set this c) e (cells mem c)).
      lia.
  - intros cs zone mem Hnd Hlen.
    destruct (AddHints_first Constants cs zone mem)
      as (this' & mem' & E & Hi & Hs).
    { apply NoDup_distinct, NoDup_rev, Hnd. }
    exists this', mem'. split; [exact E|]. split; [exact Hi|].
    change (length cs) with (@length (elem Constants) cs) in Hlen.
    rewrite Hlen in Hs. exact Hs.
  - intros c this e zone mem impl Hi Hz. unfold AddHint, EnsureAllocated.
    rewrite Hi. apply Nat.eqb_neq in Hz. rewrite Nat.eqb_sym in Hz.
    now rewrite Hz.
  - intros c this e zone check mem Hh.
    destruct (AddHint_home c this e zone check mem Hh) as (h & m & E & _).
    eauto.
Qed.

End WithCallables.

Arguments constants_cells {_ _} _.
Arguments maps_cells {_ _} _.
Arguments virtual_closures_cells {_ _} _.
Arguments virtual_contexts_cells {_ _} _.
Arguments virtual_bound_functions_cells {_ _} _.
Arguments cells {_ _} mem c.

(** Sixty constants, at sixty addresses. *)
Definition sixty : list Handle := map Z.of_nat (seq 1 60).

Lemma sixty_NoDup : NoDup sixty.
Proof.
  apply Injective_map_NoDup; [|apply seq_NoDup].
  intros x y. apply Nat2Z.inj.
Qed.

(** A memory with no cell yet, closures and bound functions being
    numbers. *)
Definition no_cells : Memory Z Z := mkMemory Z Z [] [] [] [] [].

(** Two context hints of one context, at distances 1 and 2. *)
Definition two_contexts : list VirtualContext :=
  [mkVirtualContext 1%Z 16%Z; mkVirtualContext 2%Z 16%Z].

Lemma Hints_cap_witness :
  (exists this' mem',
     AddConstants Z Z addr_hash Hints_empty sixty 7 no_cells = Ok (this', mem')
     /\ iter (constants_cells mem') (constants this') = rev (firstn 50 sixty)
     /\ Size (constants_cells mem') (constants this') = 50
     /\ (forall h m,
           AddHint Z Z.eqb addr_hash Z Z.eqb addr_hash addr_hash addr_hash
                   Z.lxor addr_hash Constants this' 99%Z 7 true mem'
           = Ok (h, m) ->
           (m = mem' /\
            forall c', category_set h c' = category_set this' c') /\
           Size (cells m Constants) (category_set h Constants)
           <= kMaxHintsSize)) /\
  (exists this' mem',
     AddHints Z Z.eqb addr_hash Z Z.eqb addr_hash addr_hash addr_hash
              Z.lxor addr_hash VirtualContexts Hints_empty two_contexts 7
              no_cells = Ok (this', mem') /\
     iter (cells mem' VirtualContexts) (category_set this' VirtualContexts) =
       rev (firstn kMaxHintsSize two_contexts) /\
     Size (cells mem' VirtualContexts) (category_set this' VirtualContexts) =
       Nat.min kMaxHintsSize (length two_contexts)) /\
  AddHint Z Z.eqb addr_hash Z Z.eqb addr_hash addr_hash addr_hash
          Z.lxor addr_hash Maps
          (mkHints (Some (mkHintsImpl empty empty empty empty empty 7)))
          5%Z 8 true no_cells = Fatal /\
  (exists this' mem',
     AddHint Z Z.eqb addr_hash Z Z.eqb addr_hash addr_hash addr_hash
             Z.lxor addr_hash Maps
             (mkHints (Some (mkHintsImpl empty empty empty empty empty 7)))
             5%Z 7 true no_cells = Ok (this', mem')).
Proof.
  destruct (Hints_cap Z Z.eqb addr_hash Z Z.eqb addr_hash addr_hash addr_hash
                      Z.lxor addr_hash)
    as (_ & Hdrop & Hbound & Hfirst & Hsixty & Hfatal & Hhome).
  split; [|split; [|split]].
  - destruct (Hsixty sixty 7 no_cells sixty_NoDup eq_refl)
      as (this' & mem' & E & Hi & Hs).
    exists this', mem'. split; [exact E|]. split; [exact Hi|].
    split; [exact Hs|]. intros h m H.
    assert (Size (cells mem' Constants) (category_set this' Constants) = 50)
      as Hs' by exact Hs.
    split.
    + apply (Hdrop Constants this' 99%Z 7 true mem' h m); [|exact H].
      rewrite Hs'. reflexivity.
    + apply (Hbound Constants this' 99%Z 7 true mem' h m); [|exact H].
      rewrite Hs'. reflexivity.
  - apply (Hfirst VirtualContexts two_contexts 7 no_cells).
    vm_compute. repeat split; intros ? ?; intuition (subst; reflexivity).
  - apply (Hfatal Maps _ 5%Z 8 no_cells
             (mkHintsImpl empty empty empty empty empty 7));
      [reflexivity|discriminate].
  - apply (Hhome Maps _ 5%Z 7 true no_cells). reflexivity.
Defined.

End Hints.
